(** * Regression objectives of LightGBM: gradients and hessians

    A shallow embedding of [src/objective/regression_objective.hpp]:
    the four classes [RegressionL2loss], [RegressionL1loss],
    [RegressionHuberLoss] and [RegressionFairLoss], each with its
    [Init], [GetGradients] and [GetName].

    The C++ code computes on [double] and [float].  The embedding is
    written once over an interface of the arithmetic it uses
    ([Arith]) and is run at two instances:
    - [IEEE]: binary64 and binary32 as specified by the Standard
      Library's [SpecFloat], rounding to nearest even; this is the
      arithmetic of the compiled code;
    - [Exact]: rationals, every rounding step being the identity; this
      is the arithmetic in which the loss formulas are usually read.  *)

From Stdlib Require Import ZArith QArith Qabs Lqa Lia String.
From Stdlib Require Import Floats.SpecFloat.
From stdpp Require Import base option list.

Local Open Scope Z_scope.

(** ** The arithmetic used by the objectives *)

(** [double] and [float] are the two C++ types; [score_t], the type of
    the gradient and hessian buffers, is [float] (LightGBM/meta.h, which
    is not among the sources at hand, declares it so; the source writes
    [1.0f] and [weights_[i]] into those buffers without a cast and puts a
    [static_cast<score_t>] around every [double]). *)
Class Arith := {
  double : Type;
  float : Type;
  (** implicit promotion of a [float] operand to [double] *)
  d_of_f : float -> double;
  (** [static_cast<score_t>] of a [double] *)
  f_of_d : double -> float;
  dadd : double -> double -> double;
  dsub : double -> double -> double;
  dmul : double -> double -> double;
  ddiv : double -> double -> double;
  dneg : double -> double;
  (** [std::abs] and [std::fabs] on [double] *)
  dabs : double -> double;
  (** [a <= b] on [double] *)
  dle : double -> double -> bool;
  fmul : float -> float -> float;
  fneg : float -> float;
  (** the literals [0.0f] and [1.0f] *)
  f0 : float;
  f1 : float
}.

(** [a >= b] is [b <= a], also on NaN, where both are false. *)
Definition dge `{Arith} (a b : double) : bool := dle b a.

(** *** IEEE 754 instance *)

Module IEEE.

(** binary64: 53 bits of precision, exponent of infinity 1024. *)
Definition prec64 : Z := 53.
Definition emax64 : Z := 1024.
(** binary32: 24 bits of precision, exponent of infinity 128. *)
Definition prec32 : Z := 24.
Definition emax32 : Z := 128.

(** Conversion to a format: zeros, infinities and NaN are kept, a
    finite number is rounded to nearest even in the target format. *)
Definition convert (prec emax : Z) (x : spec_float) : spec_float :=
  match x with
  | S754_finite s m e => binary_round prec emax s m e
  | _ => x
  end.

Definition to_float : spec_float -> spec_float := convert prec32 emax32.
Definition to_double : spec_float -> spec_float := convert prec64 emax64.

Definition zero : spec_float := S754_zero false.
(** [1.0f]: mantissa 2^23, exponent -23. *)
Definition one32 : spec_float := S754_finite false 8388608 (-23).
(** [1.0]: mantissa 2^52, exponent -52. *)
Definition one64 : spec_float := S754_finite false 4503599627370496 (-52).

(** The value of a small integer in each format. *)
Definition f32_of_Z (z : Z) : spec_float := binary_normalize prec32 emax32 z 0 false.
Definition f64_of_Z (z : Z) : spec_float := binary_normalize prec64 emax64 z 0 false.
(** [m * 2^e] in binary64. *)
Definition f64_of_pow2 (m e : Z) : spec_float := binary_normalize prec64 emax64 m e false.

Definition is_finite (x : spec_float) : bool :=
  match x with
  | S754_zero _ | S754_finite _ _ _ => true
  | _ => false
  end.

(** [std::signbit]: the sign bit of a number; NaN has no sign here. *)
Definition sign_bit (x : spec_float) : bool :=
  match x with
  | S754_zero s | S754_infinity s | S754_finite s _ _ => s
  | S754_nan => false
  end.

(** [0 < x], [0 <= x] *)
Definition is_pos (x : spec_float) : bool := SFltb zero x.
Definition is_nonneg (x : spec_float) : bool := SFleb zero x.

#[export] Instance arith : Arith := {|
  double := spec_float;
  float := spec_float;
  d_of_f := to_double;
  f_of_d := to_float;
  dadd := SFadd prec64 emax64;
  dsub := SFsub prec64 emax64;
  dmul := SFmul prec64 emax64;
  ddiv := SFdiv prec64 emax64;
  dneg := SFopp;
  dabs := SFabs;
  dle := SFleb;
  fmul := SFmul prec32 emax32;
  fneg := SFopp;
  f0 := zero;
  f1 := one32
  |}.

End IEEE.

(** *** Exact instance: rationals, no rounding *)

Module Exact.

#[export] Instance arith : Arith := {|
  double := Q;
  float := Q;
  d_of_f := fun x => x;
  f_of_d := fun x => x;
  dadd := Qplus;
  dsub := Qminus;
  dmul := Qmult;
  ddiv := Qdiv;
  dneg := Qopp;
  dabs := Qabs;
  dle := Qle_bool;
  fmul := Qmult;
  fneg := Qopp;
  f0 := 0%Q;
  f1 := 1%Q
  |}.

End Exact.

(** ** Arrays behind C pointers *)

(** A buffer is a list; an access outside it is undefined behaviour in
    C++ and [None] here. *)
Definition load {A} (a : list A) (i : nat) : option A := a !! i.

Definition store {A} (a : list A) (i : nat) (v : A) : option (list A) :=
  if (i <? length a)%nat then Some (<[i:=v]> a) else None.

(** [for (data_size_t i = 0; i < num_data; ++i) body]: the iterations
    [0, 1, ..., num_data - 1] in order ([data_size_t] is a signed
    integer: a negative [num_data] gives no iteration).  The loops of
    this file carry [#pragma omp parallel for]; their iterations touch
    disjoint cells, so the order taken here is one of the equivalent
    schedules (see [parallel_for_any_order]). *)
Fixpoint for_from {St} (body : nat -> St -> option St) (i n : nat) (s : St) : option St :=
  match n with
  | O => Some s
  | S n' => s' ← body i s; for_from body (S i) n' s'
  end.

Definition parallel_for {St} (num_data : Z) (body : nat -> St -> option St) (s : St) : option St :=
  for_from body 0 (Z.to_nat num_data) s.

(** The iterations of a loop taken in a given order. *)
Fixpoint for_each {St} (body : nat -> St -> option St) (order : list nat) (s : St)
  : option St :=
  match order with
  | [] => Some s
  | i :: rest => s' ← body i s; for_each body rest s'
  end.

(** The two output buffers of [GetGradients]. *)
Record Out `{Arith} := mkOut { gradients : list float; hessians : list float }.

(** [gradients[i] = g; hessians[i] = h;] *)
Definition write `{Arith} (i : nat) (g h : float) (o : Out) : option Out :=
  gs ← store (gradients o) i g;
  hs ← store (hessians o) i h;
  Some (mkOut _ gs hs).

(** The metadata collaborator: [label()] is never null, [weights()] may
    be [nullptr]. *)
Record Metadata `{Arith} := mkMetadata {
  label : list float;
  weights : option (list float)
}.

(** [ObjectiveConfig] (LightGBM/config.h, not among the sources at
    hand): the three fields the constructors read, each through
    [static_cast<double>]; the record holds the values after that cast. *)
Record ObjectiveConfig `{Arith} := mkConfig {
  gaussian_eta : double;
  huber_delta : double;
  fair_c : double
}.

(** Modelled from the spec: [Common::ApproximateHessianWithGaussian]
    is declared in LightGBM/utils/common.h, which is not among the
    sources at hand; only its two call shapes are visible.  The spec
    (4.6, Derivative-Smoothing Utility) fixes no formula for it, only a
    contract: given the score, the label, the first derivative already
    computed, the bandwidth [eta] and optionally the weight of the
    example, it returns a curvature estimate.  It is a parameter of the
    two classes that call it; the arguments are taken at the types they
    have at the call ([double] score, [float] label, [score_t]
    gradient, [double] eta, [float] weight when one is passed), the
    result is a [double], which the callers cast to [score_t]. *)
Definition SmoothingUtility `{Arith} : Type :=
  double -> float -> float -> double -> option float -> double.

(** ** class RegressionL2loss *)

Module RegressionL2loss.
Section Class.
Context `{Arith}.

Record t := mk {
  num_data_ : Z;
  label_ : list float;
  weights_ : option (list float)
}.

(** The constructor leaves the three fields uninitialised; the model
    gives them empty values.  Every statement below is about an object
    after [Init]. *)
Definition new (_ : ObjectiveConfig) : t := mk 0 [] None.

Definition Init (self : t) (metadata : Metadata) (num_data : Z) : t :=
  mk num_data (label metadata) (weights metadata).

Definition GetGradients (self : t) (score : list double) (out : Out) : option Out :=
  match weights_ self with
  | None =>
      parallel_for (num_data_ self) (fun i out =>
        s ← load score i;
        l ← load (label_ self) i;
        write i (f_of_d (dsub s (d_of_f l))) f1 out) out
  | Some weights =>
      parallel_for (num_data_ self) (fun i out =>
        s ← load score i;
        l ← load (label_ self) i;
        w ← load weights i;
        write i (fmul (f_of_d (dsub s (d_of_f l))) w) w out) out
  end.

Definition GetName (self : t) : string := "regression".

End Class.
End RegressionL2loss.

(** ** class RegressionL1loss *)

Module RegressionL1loss.
Section Class.
Context `{Arith}.
Variable ApproximateHessianWithGaussian : SmoothingUtility.

Record t := mk {
  num_data_ : Z;
  label_ : list float;
  weights_ : option (list float);
  eta_ : double
}.

Definition new (config : ObjectiveConfig) : t :=
  mk 0 [] None (gaussian_eta config).

Definition Init (self : t) (metadata : Metadata) (num_data : Z) : t :=
  mk num_data (label metadata) (weights metadata) (eta_ self).

(** [gradients[i]], read back in the call of the utility, is the value
    stored on the line before. *)
Definition GetGradients (self : t) (score : list double) (out : Out) : option Out :=
  match weights_ self with
  | None =>
      parallel_for (num_data_ self) (fun i out =>
        s ← load score i;
        l ← load (label_ self) i;
        let diff := dsub s (d_of_f l) in
        let g := if dge diff (d_of_f f0) then f1 else fneg f1 in
        write i g (f_of_d (ApproximateHessianWithGaussian s l g (eta_ self) None)) out) out
  | Some weights =>
      parallel_for (num_data_ self) (fun i out =>
        s ← load score i;
        l ← load (label_ self) i;
        w ← load weights i;
        let diff := dsub s (d_of_f l) in
        let g := if dge diff (d_of_f f0) then w else fneg w in
        write i g (f_of_d (ApproximateHessianWithGaussian s l g (eta_ self) (Some w))) out) out
  end.

Definition GetName (self : t) : string := "regression_l1".

End Class.
End RegressionL1loss.

(** ** class RegressionHuberLoss *)

Module RegressionHuberLoss.
Section Class.
Context `{Arith}.
Variable ApproximateHessianWithGaussian : SmoothingUtility.

Record t := mk {
  num_data_ : Z;
  label_ : list float;
  weights_ : option (list float);
  delta_ : double;
  eta_ : double
}.

Definition new (config : ObjectiveConfig) : t :=
  mk 0 [] None (huber_delta config) (gaussian_eta config).

Definition Init (self : t) (metadata : Metadata) (num_data : Z) : t :=
  mk num_data (label metadata) (weights metadata) (delta_ self) (eta_ self).

Definition GetGradients (self : t) (score : list double) (out : Out) : option Out :=
  match weights_ self with
  | None =>
      parallel_for (num_data_ self) (fun i out =>
        s ← load score i;
        l ← load (label_ self) i;
        let diff := dsub s (d_of_f l) in
        if dle (dabs diff) (delta_ self) then
          write i (f_of_d diff) f1 out
        else
          let g := if dge diff (d_of_f f0) then f_of_d (delta_ self)
                   else f_of_d (dneg (delta_ self)) in
          write i g (f_of_d (ApproximateHessianWithGaussian s l g (eta_ self) None)) out) out
  | Some weights =>
      parallel_for (num_data_ self) (fun i out =>
        s ← load score i;
        l ← load (label_ self) i;
        w ← load weights i;
        let diff := dsub s (d_of_f l) in
        if dle (dabs diff) (delta_ self) then
          write i (f_of_d (dmul diff (d_of_f w))) w out
        else
          let g := if dge diff (d_of_f f0) then f_of_d (dmul (delta_ self) (d_of_f w))
                   else f_of_d (dmul (dneg (delta_ self)) (d_of_f w)) in
          write i g (f_of_d (ApproximateHessianWithGaussian s l g (eta_ self) (Some w))) out) out
  end.

Definition GetName (self : t) : string := "huber".

End Class.
End RegressionHuberLoss.

(** ** class RegressionFairLoss *)

Module RegressionFairLoss.
Section Class.
Context `{Arith}.

Record t := mk {
  num_data_ : Z;
  label_ : list float;
  weights_ : option (list float);
  c_ : double
}.

Definition new (config : ObjectiveConfig) : t :=
  mk 0 [] None (fair_c config).

Definition Init (self : t) (metadata : Metadata) (num_data : Z) : t :=
  mk num_data (label metadata) (weights metadata) (c_ self).

Definition GetGradients (self : t) (score : list double) (out : Out) : option Out :=
  let c := c_ self in
  match weights_ self with
  | None =>
      parallel_for (num_data_ self) (fun i out =>
        s ← load score i;
        l ← load (label_ self) i;
        let x := dsub s (d_of_f l) in
        write i (f_of_d (ddiv (dmul c x) (dadd (dabs x) c)))
                (f_of_d (ddiv (dmul c c) (dmul (dadd (dabs x) c) (dadd (dabs x) c)))) out) out
  | Some weights =>
      parallel_for (num_data_ self) (fun i out =>
        s ← load score i;
        l ← load (label_ self) i;
        w ← load weights i;
        let x := dsub s (d_of_f l) in
        write i (f_of_d (dmul (ddiv (dmul c x) (dadd (dabs x) c)) (d_of_f w)))
                (f_of_d (dmul (ddiv (dmul c c) (dmul (dadd (dabs x) c) (dadd (dabs x) c)))
                              (d_of_f w))) out) out
  end.

Definition GetName (self : t) : string := "fair".

End Class.
End RegressionFairLoss.

(** ** The interface [ObjectiveFunction] *)

(** The four classes override the virtual [Init], [GetGradients] and
    [GetName] of [ObjectiveFunction]; a call through the base class
    dispatches on the dynamic type. *)
Inductive ObjectiveFunction `{Arith} :=
  | L2loss (self : RegressionL2loss.t)
  | L1loss (self : RegressionL1loss.t)
  | HuberLoss (self : RegressionHuberLoss.t)
  | FairLoss (self : RegressionFairLoss.t).

Section Dispatch.
Context `{Arith}.
Variable ApproximateHessianWithGaussian : SmoothingUtility.

Definition Init (self : ObjectiveFunction) (metadata : Metadata) (num_data : Z)
  : ObjectiveFunction :=
  match self with
  | L2loss o => L2loss (RegressionL2loss.Init o metadata num_data)
  | L1loss o => L1loss (RegressionL1loss.Init o metadata num_data)
  | HuberLoss o => HuberLoss (RegressionHuberLoss.Init o metadata num_data)
  | FairLoss o => FairLoss (RegressionFairLoss.Init o metadata num_data)
  end.

Definition GetGradients (self : ObjectiveFunction) (score : list double) (out : Out)
  : option Out :=
  match self with
  | L2loss o => RegressionL2loss.GetGradients o score out
  | L1loss o => RegressionL1loss.GetGradients ApproximateHessianWithGaussian o score out
  | HuberLoss o => RegressionHuberLoss.GetGradients ApproximateHessianWithGaussian o score out
  | FairLoss o => RegressionFairLoss.GetGradients o score out
  end.

Definition GetName (self : ObjectiveFunction) : string :=
  match self with
  | L2loss o => RegressionL2loss.GetName o
  | L1loss o => RegressionL1loss.GetName o
  | HuberLoss o => RegressionHuberLoss.GetName o
  | FairLoss o => RegressionFairLoss.GetName o
  end.

(** The fields every class keeps after [Init]. *)
Definition num_data (self : ObjectiveFunction) : Z :=
  match self with
  | L2loss o => RegressionL2loss.num_data_ o
  | L1loss o => RegressionL1loss.num_data_ o
  | HuberLoss o => RegressionHuberLoss.num_data_ o
  | FairLoss o => RegressionFairLoss.num_data_ o
  end.

Definition bound_label (self : ObjectiveFunction) : list float :=
  match self with
  | L2loss o => RegressionL2loss.label_ o
  | L1loss o => RegressionL1loss.label_ o
  | HuberLoss o => RegressionHuberLoss.label_ o
  | FairLoss o => RegressionFairLoss.label_ o
  end.

Definition bound_weights (self : ObjectiveFunction) : option (list float) :=
  match self with
  | L2loss o => RegressionL2loss.weights_ o
  | L1loss o => RegressionL1loss.weights_ o
  | HuberLoss o => RegressionHuberLoss.weights_ o
  | FairLoss o => RegressionFairLoss.weights_ o
  end.

End Dispatch.

(** ** What one iteration computes *)

(** The values read by iteration [i]: [score[i]], [label_[i]] and, when
    a weight vector is bound, [weights_[i]]. *)
Definition inputs_at `{Arith} (score : list double) (label : list float)
    (weights : option (list float)) (i : nat) : option (double * float * option float) :=
  s ← load score i;
  l ← load label i;
  match weights with
  | None => Some (s, l, None)
  | Some ws => w ← load ws i; Some (s, l, Some w)
  end.

(** The pair (gradient, hessian) of one example, per class, as a
    function of the values read for it.  [GetGradients_cells] below
    shows that the loops of the classes store exactly these pairs. *)
Section Cells.
Context `{Arith}.
Variable ApproximateHessianWithGaussian : SmoothingUtility.

Definition L2_cell (s : double) (l : float) (w : option float) : float * float :=
  match w with
  | None => (f_of_d (dsub s (d_of_f l)), f1)
  | Some w => (fmul (f_of_d (dsub s (d_of_f l))) w, w)
  end.

Definition L1_cell (eta : double) (s : double) (l : float) (w : option float) : float * float :=
  let diff := dsub s (d_of_f l) in
  let g := match w with
           | None => if dge diff (d_of_f f0) then f1 else fneg f1
           | Some w => if dge diff (d_of_f f0) then w else fneg w
           end in
  (g, f_of_d (ApproximateHessianWithGaussian s l g eta w)).

Definition Huber_cell (delta eta : double) (s : double) (l : float) (w : option float)
  : float * float :=
  let diff := dsub s (d_of_f l) in
  if dle (dabs diff) delta then
    match w with
    | None => (f_of_d diff, f1)
    | Some w => (f_of_d (dmul diff (d_of_f w)), w)
    end
  else
    let g := match w with
             | None => if dge diff (d_of_f f0) then f_of_d delta else f_of_d (dneg delta)
             | Some w => if dge diff (d_of_f f0) then f_of_d (dmul delta (d_of_f w))
                         else f_of_d (dmul (dneg delta) (d_of_f w))
             end in
    (g, f_of_d (ApproximateHessianWithGaussian s l g eta w)).

Definition Fair_cell (c : double) (s : double) (l : float) (w : option float) : float * float :=
  let x := dsub s (d_of_f l) in
  let g := ddiv (dmul c x) (dadd (dabs x) c) in
  let h := ddiv (dmul c c) (dmul (dadd (dabs x) c) (dadd (dabs x) c)) in
  match w with
  | None => (f_of_d g, f_of_d h)
  | Some w => (f_of_d (dmul g (d_of_f w)), f_of_d (dmul h (d_of_f w)))
  end.

Definition cell (self : ObjectiveFunction) : double -> float -> option float -> float * float :=
  match self with
  | L2loss _ => L2_cell
  | L1loss o => L1_cell (RegressionL1loss.eta_ o)
  | HuberLoss o => Huber_cell (RegressionHuberLoss.delta_ o) (RegressionHuberLoss.eta_ o)
  | FairLoss o => Fair_cell (RegressionFairLoss.c_ o)
  end.

(** A loop that stores, at each index, a pair computed from the values
    read at that index. *)
Definition cells_body (f : double -> float -> option float -> float * float)
    (score : list double) (label : list float) (weights : option (list float))
    (i : nat) (out : Out) : option Out :=
  x ← inputs_at score label weights i;
  let '(s, l, w) := x in
  write i (f s l w).1 (f s l w).2 out.

(** The buffers are large enough for [n] iterations. *)
Definition well_sized (n : nat) (score : list double) (label : list float)
    (weights : option (list float)) (out : Out) : Prop :=
  (n <= length score)%nat /\ (n <= length label)%nat /\
  (forall ws, weights = Some ws -> (n <= length ws)%nat) /\
  (n <= length (gradients out))%nat /\ (n <= length (hessians out))%nat.

End Cells.

(** ** A caller and its buffers *)

(** What a caller of [GetGradients] holds: the objective (with the
    label and weight vectors it borrowed at [Init]), the score vector
    and the two output buffers.  The output buffers are the caller's
    own: they share no cell with the score, label or weight vectors. *)
Record World `{Arith} := mkWorld {
  this : ObjectiveFunction;
  score_buffer : list double;
  out_buffer : Out
}.

Section Calls.
Context `{Arith}.
Variable ApproximateHessianWithGaussian : SmoothingUtility.

(** [this->GetGradients(score, gradients, hessians)]: the method is
    [const], [score] is a pointer to [const], [label_] and [weights_]
    are pointers to [const]: only the two output buffers are assigned. *)
Definition call_GetGradients (w : World) : option World :=
  out' ← GetGradients ApproximateHessianWithGaussian (this w) (score_buffer w) (out_buffer w);
  Some (mkWorld _ (this w) (score_buffer w) out').

End Calls.

(** Two objectives of the same class with the same configuration;
    the vectors they are bound to may differ. *)
Definition same_config `{Arith} (a b : ObjectiveFunction) : Prop :=
  match a, b with
  | L2loss _, L2loss _ => True
  | L1loss x, L1loss y => RegressionL1loss.eta_ x = RegressionL1loss.eta_ y
  | HuberLoss x, HuberLoss y =>
      RegressionHuberLoss.delta_ x = RegressionHuberLoss.delta_ y /\
      RegressionHuberLoss.eta_ x = RegressionHuberLoss.eta_ y
  | FairLoss x, FairLoss y => RegressionFairLoss.c_ x = RegressionFairLoss.c_ y
  | _, _ => False
  end.

(** The squared-error objective bound to the vectors of a Huber
    objective. *)
Definition L2_of_Huber `{Arith} (self : RegressionHuberLoss.t) : RegressionL2loss.t :=
  RegressionL2loss.mk (RegressionHuberLoss.num_data_ self)
    (RegressionHuberLoss.label_ self) (RegressionHuberLoss.weights_ self).

(** ** The contract of the smoothing utility *)

(** Modelled from the spec: of [Common::ApproximateHessianWithGaussian],
    whose body is not among the sources at hand, the spec (4.6) requires
    that it is "strictly positive for all finite inputs (never zero,
    never negative)".  In binary64: whenever the five arguments are
    finite numbers, the result compares greater than zero. *)
Definition strictly_positive (K : SmoothingUtility (H := IEEE.arith)) : Prop :=
  forall (s l g eta : spec_float) (w : option spec_float),
    IEEE.is_finite s = true -> IEEE.is_finite l = true ->
    IEEE.is_finite g = true -> IEEE.is_finite eta = true ->
    (forall x, w = Some x -> IEEE.is_finite x = true) ->
    IEEE.is_pos (K s l g eta w) = true.

(** The same requirement when nothing is rounded. *)
Definition strictly_positive_exact (K : SmoothingUtility (H := Exact.arith)) : Prop :=
  forall (s l g eta : Q) (w : option Q), (0 < K s l g eta w)%Q.

(** A utility that meets the contract with a small value: 2^-200 on
    every input, a positive binary64 number below half of the least
    positive binary32 number. *)
Definition small_utility : SmoothingUtility (H := IEEE.arith) :=
  fun _ _ _ _ _ => IEEE.f64_of_pow2 1 (-200).

(** A number of sign [s]: a zero, a finite number or an infinity; not
    NaN. *)
Definition signed_number (s : bool) (x : spec_float) : Prop :=
  x = S754_zero s \/ (exists m e, x = S754_finite s m e) \/ x = S754_infinity s.

(** ** Concrete inputs *)

(** The scenarios of the spec: three examples with labels 1, 2, 3 and
    scores 1, 1, 1, no weights; [delta = 1], [c = 1]. *)
Definition scenario_label : list spec_float := map IEEE.f32_of_Z [1; 2; 3].
Definition scenario_score : list spec_float := map IEEE.f64_of_Z [1; 1; 1].
Definition scenario_metadata : Metadata (H := IEEE.arith) :=
  mkMetadata IEEE.arith scenario_label None.
Definition scenario_config : ObjectiveConfig (H := IEEE.arith) :=
  mkConfig IEEE.arith IEEE.one64 IEEE.one64 IEEE.one64.
Definition scenario_L2 : RegressionL2loss.t (H := IEEE.arith) :=
  RegressionL2loss.Init (RegressionL2loss.new scenario_config) scenario_metadata 3.
Definition scenario_Fair : RegressionFairLoss.t (H := IEEE.arith) :=
  RegressionFairLoss.Init (RegressionFairLoss.new scenario_config) scenario_metadata 3.

Definition scenario_L1 : RegressionL1loss.t (H := IEEE.arith) :=
  RegressionL1loss.Init (RegressionL1loss.new scenario_config) scenario_metadata 3.
Definition scenario_Huber : RegressionHuberLoss.t (H := IEEE.arith) :=
  RegressionHuberLoss.Init (RegressionHuberLoss.new scenario_config) scenario_metadata 3.
Definition zeros3 : Out (H := IEEE.arith) :=
  mkOut IEEE.arith [IEEE.zero; IEEE.zero; IEEE.zero] [IEEE.zero; IEEE.zero; IEEE.zero].
Definition zeros1 : Out (H := IEEE.arith) := mkOut IEEE.arith [IEEE.zero] [IEEE.zero].

(** One example with label 0 and weight -1. *)
Definition negative_weight_metadata : Metadata (H := IEEE.arith) :=
  mkMetadata IEEE.arith [IEEE.zero] (Some [IEEE.f32_of_Z (-1)]).
Definition negative_weight_L1 : RegressionL1loss.t (H := IEEE.arith) :=
  RegressionL1loss.Init (RegressionL1loss.new scenario_config) negative_weight_metadata 1.

(** One example with label 0 and weight 3, score 1 + 2^-24, which is a
    [double] half-way between two [float]s; [delta = 2]. *)
Definition halfway_metadata : Metadata (H := IEEE.arith) :=
  mkMetadata IEEE.arith [IEEE.zero] (Some [IEEE.f32_of_Z 3]).
Definition halfway_score : list spec_float := [IEEE.f64_of_pow2 (2 ^ 24 + 1) (-24)].
Definition halfway_config : ObjectiveConfig (H := IEEE.arith) :=
  mkConfig IEEE.arith IEEE.one64 (IEEE.f64_of_Z 2) IEEE.one64.
Definition halfway_L2 : RegressionL2loss.t (H := IEEE.arith) :=
  RegressionL2loss.Init (RegressionL2loss.new halfway_config) halfway_metadata 1.
Definition halfway_Huber : RegressionHuberLoss.t (H := IEEE.arith) :=
  RegressionHuberLoss.Init (RegressionHuberLoss.new halfway_config) halfway_metadata 1.

(** One example with label 0 and weight 1, score 2^60; [c = 1]. *)
Definition far_metadata : Metadata (H := IEEE.arith) :=
  mkMetadata IEEE.arith [IEEE.zero] (Some [IEEE.one32]).
Definition far_score : list spec_float := [IEEE.f64_of_pow2 1 60].
Definition far_Fair : RegressionFairLoss.t (H := IEEE.arith) :=
  RegressionFairLoss.Init (RegressionFairLoss.new scenario_config) far_metadata 1.

(** The same example with [c] the [double] nearest to 0.1. *)
Definition tenth : spec_float := IEEE.f64_of_pow2 3602879701896397 (-55).
Definition tenth_Fair : RegressionFairLoss.t (H := IEEE.arith) :=
  RegressionFairLoss.Init
    (RegressionFairLoss.new (mkConfig IEEE.arith IEEE.one64 IEEE.one64 tenth)) far_metadata 1.

(** Two examples with label 0 and weight 1, scores 0 and 2^-60; [c = 1]. *)
Definition near_metadata : Metadata (H := IEEE.arith) :=
  mkMetadata IEEE.arith [IEEE.zero; IEEE.zero] (Some [IEEE.one32; IEEE.one32]).
Definition near_score : list spec_float := [IEEE.zero; IEEE.f64_of_pow2 1 (-60)].
Definition near_Fair : RegressionFairLoss.t (H := IEEE.arith) :=
  RegressionFairLoss.Init (RegressionFairLoss.new scenario_config) near_metadata 2.
Definition zeros2 : Out (H := IEEE.arith) :=
  mkOut IEEE.arith [IEEE.zero; IEEE.zero] [IEEE.zero; IEEE.zero].

(** On rationals: one example with label 0 and weight 2, score 3;
    [c = 1], [delta = 1]. *)
Definition exact_metadata : Metadata (H := Exact.arith) :=
  mkMetadata Exact.arith [0%Q] (Some [2%Q]).
Definition exact_config : ObjectiveConfig (H := Exact.arith) :=
  mkConfig Exact.arith 1%Q 1%Q 1%Q.
Definition exact_Fair : RegressionFairLoss.t (H := Exact.arith) :=
  RegressionFairLoss.Init (RegressionFairLoss.new exact_config) exact_metadata 1.
Definition exact_out : Out (H := Exact.arith) := mkOut Exact.arith [0%Q] [0%Q].

(** ** The call seen as a map, and under another schedule *)

(** The cells of all examples, computed as a map over the score, label
    and weight vectors; [GetGradients_closed_form] shows that a call
    stores the first [num_data_] of them. *)
Definition all_cells `{Arith} (K : SmoothingUtility) (self : ObjectiveFunction)
    (score : list double) : list (float * float) :=
  match bound_weights self with
  | None => zip_with (fun s l => cell K self s l None) score (bound_label self)
  | Some ws =>
      zip_with (fun sl w => cell K self sl.1 sl.2 (Some w)) (zip score (bound_label self)) ws
  end.

(** The iterations of the loop of [GetGradients] taken in the order
    [order] instead of [0, 1, ..., num_data_ - 1]: what a thread team of
    [#pragma omp parallel for] does when its iterations are serialised
    in that order. *)
Definition GetGradients_scheduled `{Arith} (K : SmoothingUtility) (self : ObjectiveFunction)
    (score : list double) (order : list nat) (out : Out) : option Out :=
  for_each (cells_body (cell K self) score (bound_label self) (bound_weights self)) order out.

(** Classes of binary floating-point values. *)
Definition is_nan (x : spec_float) : bool :=
  match x with S754_nan => true | _ => false end.

Definition is_infinite (x : spec_float) : bool :=
  match x with S754_infinity _ => true | _ => false end.

(** A number other than a zero: finite and not zero, or infinite. *)
Definition nonzero_number (x : spec_float) : bool :=
  match x with S754_finite _ _ _ | S754_infinity _ => true | _ => false end.

(** On rationals: two examples with label 0 and no weights; [delta = 1];
    a utility that returns 1. *)
Definition exact_metadata2 : Metadata (H := Exact.arith) :=
  mkMetadata Exact.arith [0%Q; 0%Q] None.
Definition exact_Huber : RegressionHuberLoss.t (H := Exact.arith) :=
  RegressionHuberLoss.Init (RegressionHuberLoss.new exact_config) exact_metadata2 2.
Definition exact_out2 : Out (H := Exact.arith) := mkOut Exact.arith [0%Q; 0%Q] [0%Q; 0%Q].
Definition unit_utility : SmoothingUtility (H := Exact.arith) := fun _ _ _ _ _ => 1%Q.

(** * Properties *)

(** ** The loop *)

Section Loop.
Context `{Arith}.

Lemma for_from_ext {St} (body1 body2 : nat -> St -> option St) n :
  (forall j s, body1 j s = body2 j s) ->
  forall i s, for_from body1 i n s = for_from body2 i n s.
Proof.
  intros Hb. induction n as [|n IH]; intros i s; simpl; [reflexivity|].
  rewrite Hb. destruct (body2 i s); simpl; auto.
Qed.

Lemma for_from_S {St} (body : nat -> St -> option St) i n s :
  for_from body i (S n) s = body i s ≫= for_from body (S i) n.
Proof. reflexivity. Qed.

Lemma store_Some {A} (a : list A) i v :
  (i < length a)%nat -> store a i v = Some (<[i:=v]> a).
Proof.
  intros Hi. unfold store.
  destruct (Nat.ltb_spec i (length a)); [reflexivity|lia].
Qed.

Lemma write_Some i g h (o : Out) :
  (i < length (gradients o))%nat -> (i < length (hessians o))%nat ->
  write i g h o = Some (mkOut _ (<[i:=g]> (gradients o)) (<[i:=h]> (hessians o))).
Proof.
  intros Hg Hh. unfold write. rewrite (store_Some _ _ _ Hg). simpl.
  rewrite (store_Some _ _ _ Hh). reflexivity.
Qed.

Lemma inputs_at_Some score label weights i n out :
  well_sized n score label weights out -> (i < n)%nat ->
  exists s l w, inputs_at score label weights i = Some (s, l, w) /\
    score !! i = Some s /\ label !! i = Some l /\
    match weights with
    | None => w = None
    | Some ws => exists x, ws !! i = Some x /\ w = Some x
    end.
Proof.
  intros (Hs & Hl & Hw & _) Hi. unfold inputs_at, load.
  destruct (lookup_lt_is_Some_2 score i) as [s Es]; [lia|].
  destruct (lookup_lt_is_Some_2 label i) as [l El]; [lia|].
  rewrite Es, El. simpl. destruct weights as [ws|].
  - specialize (Hw ws eq_refl).
    destruct (lookup_lt_is_Some_2 ws i) as [w Ew]; [lia|].
    rewrite Ew. simpl. exists s, l, (Some w). eauto 10.
  - exists s, l, None. auto.
Qed.

(** The loop over [i, i + n) stores the cell of every index of the
    range and leaves every other index as it was. *)
Lemma for_from_cells f score label weights n :
  forall i out,
  well_sized (i + n) score label weights out ->
  exists out',
    for_from (cells_body f score label weights) i n out = Some out' /\
    length (gradients out') = length (gradients out) /\
    length (hessians out') = length (hessians out) /\
    (forall j s l w, (i <= j < i + n)%nat ->
       inputs_at score label weights j = Some (s, l, w) ->
       gradients out' !! j = Some (f s l w).1 /\
       hessians out' !! j = Some (f s l w).2) /\
    (forall j, ~ (i <= j < i + n)%nat ->
       gradients out' !! j = gradients out !! j /\
       hessians out' !! j = hessians out !! j).
Proof.
  induction n as [|n IH]; intros i out Hws.
  - exists out. simpl. split; [reflexivity|]. split; [reflexivity|].
    split; [reflexivity|]. split; [intros; lia|]. intros; split; reflexivity.
  - destruct (inputs_at_Some _ _ _ i _ _ Hws) as (s & l & w & Ein & _); [lia|].
    destruct Hws as (Hs & Hl & Hw & Hg & Hh).
    assert (Estep : cells_body f score label weights i out =
              Some (mkOut _ (<[i:=(f s l w).1]> (gradients out))
                            (<[i:=(f s l w).2]> (hessians out)))).
    { unfold cells_body. rewrite Ein. cbn [mbind option_bind].
      apply write_Some; lia. }
    rewrite for_from_S, Estep. cbn [mbind option_bind].
    destruct (IH (S i) (mkOut _ (<[i:=(f s l w).1]> (gradients out))
                               (<[i:=(f s l w).2]> (hessians out))))
      as (out' & Erun & Lg & Lh & Hin & Hout).
    { repeat split; simpl; rewrite ?length_insert; try lia.
      intros ws E. specialize (Hw ws E). lia. }
    simpl in *. rewrite length_insert in Lg, Lh.
    exists out'. repeat split; auto.
    + destruct (decide (j = i)) as [->|Hne].
      * destruct (Hout i) as [Eg _]; [lia|]. rewrite Eg.
        rewrite list_lookup_insert_eq by lia. congruence.
      * apply (Hin j s0 l0 w0); [lia|assumption].
    + destruct (decide (j = i)) as [->|Hne].
      * destruct (Hout i) as [_ Eh]; [lia|]. rewrite Eh.
        rewrite list_lookup_insert_eq by lia. congruence.
      * apply (Hin j s0 l0 w0); [lia|assumption].
    + destruct (Hout j) as [Eg _]; [lia|]. rewrite Eg.
      apply list_lookup_insert_ne. lia.
    + destruct (Hout j) as [_ Eh]; [lia|]. rewrite Eh.
      apply list_lookup_insert_ne. lia.
Qed.

End Loop.

(** ** The loops of the four classes store the cells *)

Ltac body_cases :=
  repeat match goal with
  | |- context [load ?a ?i] => destruct (load a i); cbn [mbind option_bind]
  | |- context [if dle ?a ?b then _ else _] => destruct (dle a b)
  end; try reflexivity.

Section ClassLoops.
Context `{Arith}.
Variable ApproximateHessianWithGaussian : SmoothingUtility.

Lemma L2_GetGradients_loop self score out :
  RegressionL2loss.GetGradients self score out =
  for_from (cells_body L2_cell score (RegressionL2loss.label_ self)
              (RegressionL2loss.weights_ self))
           0 (Z.to_nat (RegressionL2loss.num_data_ self)) out.
Proof.
  unfold RegressionL2loss.GetGradients, parallel_for.
  destruct (RegressionL2loss.weights_ self) as [ws|];
    apply for_from_ext; intros j o; unfold cells_body, inputs_at, L2_cell;
    body_cases.
Qed.

Lemma L1_GetGradients_loop self score out :
  RegressionL1loss.GetGradients ApproximateHessianWithGaussian self score out =
  for_from (cells_body (L1_cell ApproximateHessianWithGaussian (RegressionL1loss.eta_ self))
              score (RegressionL1loss.label_ self) (RegressionL1loss.weights_ self))
           0 (Z.to_nat (RegressionL1loss.num_data_ self)) out.
Proof.
  unfold RegressionL1loss.GetGradients, parallel_for.
  destruct (RegressionL1loss.weights_ self) as [ws|];
    apply for_from_ext; intros j o; unfold cells_body, inputs_at, L1_cell;
    body_cases.
Qed.

Lemma Huber_GetGradients_loop self score out :
  RegressionHuberLoss.GetGradients ApproximateHessianWithGaussian self score out =
  for_from (cells_body (Huber_cell ApproximateHessianWithGaussian
                          (RegressionHuberLoss.delta_ self) (RegressionHuberLoss.eta_ self))
              score (RegressionHuberLoss.label_ self) (RegressionHuberLoss.weights_ self))
           0 (Z.to_nat (RegressionHuberLoss.num_data_ self)) out.
Proof.
  unfold RegressionHuberLoss.GetGradients, parallel_for.
  destruct (RegressionHuberLoss.weights_ self) as [ws|];
    apply for_from_ext; intros j o; unfold cells_body, inputs_at, Huber_cell;
    body_cases.
Qed.

Lemma Fair_GetGradients_loop self score out :
  RegressionFairLoss.GetGradients self score out =
  for_from (cells_body (Fair_cell (RegressionFairLoss.c_ self))
              score (RegressionFairLoss.label_ self) (RegressionFairLoss.weights_ self))
           0 (Z.to_nat (RegressionFairLoss.num_data_ self)) out.
Proof.
  unfold RegressionFairLoss.GetGradients, parallel_for.
  destruct (RegressionFairLoss.weights_ self) as [ws|];
    apply for_from_ext; intros j o; unfold cells_body, inputs_at, Fair_cell;
    body_cases.
Qed.

Lemma GetGradients_loop self score out :
  GetGradients ApproximateHessianWithGaussian self score out =
  for_from (cells_body (cell ApproximateHessianWithGaussian self)
              score (bound_label self) (bound_weights self))
           0 (Z.to_nat (num_data self)) out.
Proof.
  destruct self; simpl.
  - apply L2_GetGradients_loop.
  - apply L1_GetGradients_loop.
  - apply Huber_GetGradients_loop.
  - apply Fair_GetGradients_loop.
Qed.

(** On buffers of sufficient size a call returns; it has stored the
    cell of every index below [num_data_] and has left the indices from
    [num_data_] on as they were. *)
Lemma GetGradients_cells self score out :
  well_sized (Z.to_nat (num_data self)) score (bound_label self) (bound_weights self) out ->
  exists out',
    GetGradients ApproximateHessianWithGaussian self score out = Some out' /\
    length (gradients out') = length (gradients out) /\
    length (hessians out') = length (hessians out) /\
    (forall j s l w, (j < Z.to_nat (num_data self))%nat ->
       inputs_at score (bound_label self) (bound_weights self) j = Some (s, l, w) ->
       gradients out' !! j = Some (cell ApproximateHessianWithGaussian self s l w).1 /\
       hessians out' !! j = Some (cell ApproximateHessianWithGaussian self s l w).2) /\
    (forall j, (Z.to_nat (num_data self) <= j)%nat ->
       gradients out' !! j = gradients out !! j /\
       hessians out' !! j = hessians out !! j).
Proof.
  intros Hws. rewrite GetGradients_loop.
  destruct (for_from_cells (cell ApproximateHessianWithGaussian self) score
              (bound_label self) (bound_weights self) (Z.to_nat (num_data self)) 0%nat out Hws)
    as (out' & Erun & Lg & Lh & Hin & Hout).
  exists out'. repeat (split; [assumption|]). split.
  - intros j s l w Hj. apply Hin. lia.
  - intros j Hj. apply Hout. lia.
Qed.

End ClassLoops.

(** ** The order of the iterations does not matter *)

Section AnyOrder.
Context `{Arith}.

Lemma for_from_for_each {St} (body : nat -> St -> option St) n :
  forall i s, for_from body i n s = for_each body (seq i n) s.
Proof.
  induction n as [|n IH]; intros i s; simpl; [reflexivity|].
  destruct (body i s); simpl; auto.
Qed.

(** Iterations taken in any order, possibly repeated, over indices in
    range: every index taken holds its cell, every other index is as it
    was. *)
Lemma for_each_cells f score label weights n (order : list nat) :
  forall out,
  well_sized n score label weights out ->
  (forall j, j ∈ order -> (j < n)%nat) ->
  exists out',
    for_each (cells_body f score label weights) order out = Some out' /\
    length (gradients out') = length (gradients out) /\
    length (hessians out') = length (hessians out) /\
    (forall j s l w, j ∈ order ->
       inputs_at score label weights j = Some (s, l, w) ->
       gradients out' !! j = Some (f s l w).1 /\
       hessians out' !! j = Some (f s l w).2) /\
    (forall j, j ∉ order ->
       gradients out' !! j = gradients out !! j /\
       hessians out' !! j = hessians out !! j).
Proof.
  induction order as [|i rest IH]; intros out Hws Hrange.
  - exists out. simpl. split; [reflexivity|]. split; [reflexivity|].
    split; [reflexivity|]. split.
    + intros j s l w Hj. apply elem_of_nil in Hj. contradiction.
    + intros; split; reflexivity.
  - assert (Hi : (i < n)%nat) by (apply Hrange; left).
    destruct (inputs_at_Some _ _ _ i _ _ Hws Hi) as (s & l & w & Ein & _).
    pose proof Hws as (Hs & Hl & Hw & Hg & Hh).
    assert (Estep : cells_body f score label weights i out =
              Some (mkOut _ (<[i:=(f s l w).1]> (gradients out))
                            (<[i:=(f s l w).2]> (hessians out)))).
    { unfold cells_body. rewrite Ein. cbn [mbind option_bind].
      apply write_Some; lia. }
    simpl. rewrite Estep. cbn [mbind option_bind].
    destruct (IH (mkOut _ (<[i:=(f s l w).1]> (gradients out))
                          (<[i:=(f s l w).2]> (hessians out))))
      as (out' & Erun & Lg & Lh & Hin & Hout).
    { unfold well_sized. simpl. rewrite !length_insert. auto. }
    { intros j Hj. apply Hrange. right. exact Hj. }
    simpl in Lg, Lh, Hout. rewrite length_insert in Lg, Lh.
    exists out'. split; [exact Erun|]. split; [exact Lg|]. split; [exact Lh|]. split.
    + intros j s' l' w' Hj Ein'.
      destruct (decide (j ∈ rest)) as [Hr|Hr]; [apply Hin; assumption|].
      apply elem_of_cons in Hj. destruct Hj as [->|Hj]; [|contradiction].
      destruct (Hout i Hr) as [-> ->].
      rewrite !list_lookup_insert_eq by lia.
      rewrite Ein in Ein'. injection Ein' as <- <- <-. split; reflexivity.
    + intros j Hj. apply not_elem_of_cons in Hj. destruct Hj as [Hne Hr].
      destruct (Hout j Hr) as [-> ->].
      split; apply list_lookup_insert_ne; congruence.
Qed.

(** The loop of a class, run over any arrangement of the indices
    [0 .. num_data - 1], gives the buffers the sequential loop gives. *)
Lemma parallel_for_any_order f score label weights n (order : list nat) out :
  well_sized n score label weights out ->
  order ≡ₚ seq 0 n ->
  for_each (cells_body f score label weights) order out =
  for_from (cells_body f score label weights) 0 n out.
Proof.
  intros Hws Hperm.
  assert (Hmem : forall j, j ∈ order <-> (j < n)%nat).
  { intros j. rewrite Hperm, elem_of_seq. lia. }
  destruct (for_each_cells f score label weights n order out Hws)
    as (o1 & E1 & Lg1 & Lh1 & Hin1 & Hout1); [intros j Hj; apply Hmem, Hj|].
  destruct (for_from_cells f score label weights n 0%nat out Hws)
    as (o2 & E2 & Lg2 & Lh2 & Hin2 & Hout2).
  rewrite E1, E2. f_equal.
  assert (Heq : gradients o1 = gradients o2 /\ hessians o1 = hessians o2).
  { split; apply list_eq; intros j; destruct (decide (j < n)%nat) as [Hj|Hj].
    - destruct (inputs_at_Some _ _ _ j _ _ Hws Hj) as (s & l & w & Ein & _).
      destruct (Hin1 j s l w (proj2 (Hmem j) Hj) Ein) as [-> _].
      destruct (Hin2 j s l w) as [-> _]; [lia|exact Ein|reflexivity].
    - destruct (Hout1 j) as [-> _]; [rewrite Hmem; exact Hj|].
      destruct (Hout2 j) as [-> _]; [lia|reflexivity].
    - destruct (inputs_at_Some _ _ _ j _ _ Hws Hj) as (s & l & w & Ein & _).
      destruct (Hin1 j s l w (proj2 (Hmem j) Hj) Ein) as [_ ->].
      destruct (Hin2 j s l w) as [_ ->]; [lia|exact Ein|reflexivity].
    - destruct (Hout1 j) as [_ ->]; [rewrite Hmem; exact Hj|].
      destruct (Hout2 j) as [_ ->]; [lia|reflexivity]. }
  destruct Heq as [Eg Eh]. destruct o1, o2. simpl in *. congruence.
Qed.

End AnyOrder.

(** ** Squared error *)

(** C1.  Squared error ("regression"): on buffers that hold [num_data_]
    cells, a call of [GetGradients] returns and has written every index
    [i < num_data_]: without weights [gradients[i]] is
    [score[i] - label_[i]] (subtracted in [double], cast to [score_t])
    and [hessians[i]] is [1.0f]; with weights [gradients[i]] is that
    difference times [weights_[i]] and [hessians[i]] is [weights_[i]].
    With labels 1, 2, 3 and scores 1, 1, 1, no weights, the buffers
    become 0, -1, -2 and 1, 1, 1, whatever they held. *)
Theorem L2_GetGradients_spec :
  (forall (A : Arith) (self : RegressionL2loss.t) (score : list double) (out : Out),
     well_sized (Z.to_nat (RegressionL2loss.num_data_ self)) score
       (RegressionL2loss.label_ self) (RegressionL2loss.weights_ self) out ->
     exists out',
       RegressionL2loss.GetGradients self score out = Some out' /\
       forall (i : nat) (s : double) (l : float),
         (i < Z.to_nat (RegressionL2loss.num_data_ self))%nat ->
         score !! i = Some s -> RegressionL2loss.label_ self !! i = Some l ->
         match RegressionL2loss.weights_ self with
         | None =>
             gradients out' !! i = Some (f_of_d (dsub s (d_of_f l))) /\
             hessians out' !! i = Some f1
         | Some weights =>
             forall w, weights !! i = Some w ->
             gradients out' !! i = Some (fmul (f_of_d (dsub s (d_of_f l))) w) /\
             hessians out' !! i = Some w
         end) /\
  (forall g0 g1 g2 h0 h1 h2 : spec_float,
     RegressionL2loss.GetGradients scenario_L2 scenario_score
       (mkOut IEEE.arith [g0; g1; g2] [h0; h1; h2]) =
     Some (mkOut IEEE.arith (map IEEE.f32_of_Z [0; -1; -2]) (map IEEE.f32_of_Z [1; 1; 1]))).
Proof.
  split.
  - intros A self score out Hws.
    destruct (GetGradients_cells (fun s _ _ _ _ => s) (L2loss self) score out Hws)
      as (out' & Erun & _ & _ & Hin & _).
    exists out'. split; [exact Erun|].
    intros i s l Hi Es El. simpl in Hin.
    destruct (RegressionL2loss.weights_ self) as [ws|] eqn:Ew.
    + intros w Ewi. apply (Hin i s l (Some w) Hi).
      unfold inputs_at, load. rewrite Es, El. simpl. rewrite Ewi. reflexivity.
    + apply (Hin i s l None Hi).
      unfold inputs_at, load. rewrite Es, El. reflexivity.
  - intros. reflexivity.
Qed.

Lemma L2_GetGradients_spec_witness :
  exists out',
    RegressionL2loss.GetGradients scenario_L2 scenario_score
      (mkOut IEEE.arith [IEEE.zero; IEEE.zero; IEEE.zero] [IEEE.zero; IEEE.zero; IEEE.zero])
    = Some out' /\
    gradients out' !! 2%nat = Some (IEEE.f32_of_Z (-2)) /\
    hessians out' !! 2%nat = Some IEEE.one32.
Proof.
  destruct (proj1 L2_GetGradients_spec IEEE.arith scenario_L2 scenario_score
              (mkOut IEEE.arith [IEEE.zero; IEEE.zero; IEEE.zero]
                 [IEEE.zero; IEEE.zero; IEEE.zero])) as (out' & Erun & Hcells).
  { unfold well_sized; simpl. repeat split; try lia. intros ws E; discriminate E. }
  exists out'. split; [exact Erun|].
  apply (Hcells 2%nat (IEEE.f64_of_Z 1) (IEEE.f32_of_Z 3)); [simpl; lia|reflexivity|reflexivity].
Defined.

(** ** Fair loss *)

(** C4.  Fair loss ("fair"): on buffers that hold [num_data_] cells a
    call returns and has written, at every index [i < num_data_] with
    [x = score[i] - label_[i]], [gradients[i] = c * x / (|x| + c)] and
    [hessians[i] = c * c / ((|x| + c) * (|x| + c))], each multiplied by
    [weights_[i]] when weights are bound; the operations are those of
    [double], the result is cast to [score_t].  With [c = 1], no
    weights and [x] zero, the gradient is zero and the hessian is 1. *)
Theorem Fair_GetGradients_spec :
  (forall (A : Arith) (self : RegressionFairLoss.t) (score : list double) (out : Out),
     well_sized (Z.to_nat (RegressionFairLoss.num_data_ self)) score
       (RegressionFairLoss.label_ self) (RegressionFairLoss.weights_ self) out ->
     exists out',
       RegressionFairLoss.GetGradients self score out = Some out' /\
       forall (i : nat) (s : double) (l : float) (w : option float),
         (i < Z.to_nat (RegressionFairLoss.num_data_ self))%nat ->
         inputs_at score (RegressionFairLoss.label_ self)
           (RegressionFairLoss.weights_ self) i = Some (s, l, w) ->
         let c := RegressionFairLoss.c_ self in
         let x := dsub s (d_of_f l) in
         match w with
         | None =>
             gradients out' !! i = Some (f_of_d (ddiv (dmul c x) (dadd (dabs x) c))) /\
             hessians out' !! i =
               Some (f_of_d (ddiv (dmul c c) (dmul (dadd (dabs x) c) (dadd (dabs x) c))))
         | Some w =>
             gradients out' !! i =
               Some (f_of_d (dmul (ddiv (dmul c x) (dadd (dabs x) c)) (d_of_f w))) /\
             hessians out' !! i =
               Some (f_of_d (dmul (ddiv (dmul c c) (dmul (dadd (dabs x) c) (dadd (dabs x) c)))
                                  (d_of_f w)))
         end) /\
  (forall (score : list spec_float) (out : Out (H := IEEE.arith)),
     well_sized (H := IEEE.arith) 3 score scenario_label None out ->
     exists out',
       RegressionFairLoss.GetGradients scenario_Fair score out = Some out' /\
       forall (i : nat) (s l : spec_float) (sign : bool),
         (i < 3)%nat -> score !! i = Some s -> scenario_label !! i = Some l ->
         SFsub IEEE.prec64 IEEE.emax64 s (IEEE.to_double l) = S754_zero sign ->
         gradients out' !! i = Some (S754_zero sign) /\
         hessians out' !! i = Some IEEE.one32).
Proof.
  assert (Hgen : forall (A : Arith) (self : RegressionFairLoss.t) (score : list double)
                        (out : Out),
     well_sized (Z.to_nat (RegressionFairLoss.num_data_ self)) score
       (RegressionFairLoss.label_ self) (RegressionFairLoss.weights_ self) out ->
     exists out',
       RegressionFairLoss.GetGradients self score out = Some out' /\
       forall i s l w,
         (i < Z.to_nat (RegressionFairLoss.num_data_ self))%nat ->
         inputs_at score (RegressionFairLoss.label_ self)
           (RegressionFairLoss.weights_ self) i = Some (s, l, w) ->
         gradients out' !! i = Some (Fair_cell (RegressionFairLoss.c_ self) s l w).1 /\
         hessians out' !! i = Some (Fair_cell (RegressionFairLoss.c_ self) s l w).2).
  { intros A self score out Hws.
    destruct (GetGradients_cells (fun s _ _ _ _ => s) (FairLoss self) score out Hws)
      as (out' & Erun & _ & _ & Hin & _).
    exists out'. split; [exact Erun|]. exact Hin. }
  split.
  - intros A self score out Hws.
    destruct (Hgen A self score out Hws) as (out' & Erun & Hin).
    exists out'. split; [exact Erun|].
    intros i s l w Hi Ein c x. specialize (Hin i s l w Hi Ein).
    unfold Fair_cell in Hin. destruct w; exact Hin.
  - intros score out Hws.
    destruct (Hgen IEEE.arith scenario_Fair score out Hws) as (out' & Erun & Hin).
    exists out'. split; [exact Erun|].
    intros i s l sign Hi Es El Ex.
    specialize (Hin i s l None Hi).
    unfold Fair_cell in Hin. cbn [dsub d_of_f IEEE.arith] in Hin.
    rewrite Ex in Hin. simpl in Hin.
    destruct sign; apply Hin; unfold inputs_at, load; simpl;
      change (map IEEE.f32_of_Z [1; 2; 3]) with scenario_label;
      rewrite Es, El; reflexivity.
Qed.

Lemma Fair_GetGradients_spec_witness :
  exists out',
    RegressionFairLoss.GetGradients scenario_Fair (map IEEE.f64_of_Z [1; 2; 3])
      (mkOut IEEE.arith [IEEE.one32; IEEE.one32; IEEE.one32]
                        [IEEE.zero; IEEE.zero; IEEE.zero]) = Some out' /\
    gradients out' !! 1%nat = Some (S754_zero false) /\
    hessians out' !! 1%nat = Some IEEE.one32.
Proof.
  destruct (proj2 Fair_GetGradients_spec (map IEEE.f64_of_Z [1; 2; 3])
              (mkOut IEEE.arith [IEEE.one32; IEEE.one32; IEEE.one32]
                                [IEEE.zero; IEEE.zero; IEEE.zero]))
    as (out' & Erun & Hcells).
  { unfold well_sized; simpl. repeat split; try lia. intros ws E; discriminate E. }
  exists out'. split; [exact Erun|].
  apply (Hcells 1%nat (IEEE.f64_of_Z 2) (IEEE.f32_of_Z 2) false);
    [lia|reflexivity|reflexivity|reflexivity].
Defined.

(** ** Facts of binary floating point used below *)

Lemma SFabs_SFopp x : SFabs (SFopp x) = SFabs x.
Proof. destruct x; reflexivity. Qed.

Lemma SFabs_sign_clear x : IEEE.sign_bit x = false -> SFabs x = x.
Proof. destruct x; simpl; intros E; rewrite ?E; reflexivity. Qed.

Lemma zero_le_zero sign : SFleb IEEE.zero (S754_zero sign) = true.
Proof. reflexivity. Qed.

(** ** Absolute error *)

(** C3, as the code has it.  Absolute error ("regression_l1"), in the
    arithmetic of the compiled code and for every smoothing utility: on
    buffers that hold [num_data_] cells a call returns and has written,
    at every index [i < num_data_] with [d = score[i] - label_[i]]:
    without weights [gradients[i]] is [1.0f] if [d >= 0] and [-1.0f]
    otherwise, and its absolute value is 1; with weights [gradients[i]]
    is [weights_[i]] if [d >= 0] and [-weights_[i]] otherwise, and its
    absolute value is that of [weights_[i]] (so [weights_[i]] itself
    when the sign bit of the weight is clear); a zero [d], of either
    sign, takes the branch of [d >= 0]; [hessians[i]] is the utility
    applied to the gradient just written, cast to [score_t]. *)
Theorem L1_GetGradients_spec :
  forall (K : SmoothingUtility (H := IEEE.arith)) (self : RegressionL1loss.t)
         (score : list spec_float) (out : Out (H := IEEE.arith)),
    well_sized (H := IEEE.arith) (Z.to_nat (RegressionL1loss.num_data_ self)) score
      (RegressionL1loss.label_ self) (RegressionL1loss.weights_ self) out ->
    exists out',
      RegressionL1loss.GetGradients K self score out = Some out' /\
      forall (i : nat) (s l : spec_float) (w : option spec_float),
        (i < Z.to_nat (RegressionL1loss.num_data_ self))%nat ->
        inputs_at (H := IEEE.arith) score (RegressionL1loss.label_ self)
          (RegressionL1loss.weights_ self) i = Some (s, l, w) ->
        let d := SFsub IEEE.prec64 IEEE.emax64 s (IEEE.to_double l) in
        exists g,
          gradients out' !! i = Some g /\
          hessians out' !! i =
            Some (IEEE.to_float (K s l g (RegressionL1loss.eta_ self) w)) /\
          match w with
          | None =>
              g = (if SFleb IEEE.zero d then IEEE.one32 else SFopp IEEE.one32) /\
              SFabs g = IEEE.one32 /\
              (forall sign, d = S754_zero sign -> g = IEEE.one32)
          | Some w =>
              g = (if SFleb IEEE.zero d then w else SFopp w) /\
              SFabs g = SFabs w /\
              (IEEE.sign_bit w = false -> SFabs g = w) /\
              (forall sign, d = S754_zero sign -> g = w)
          end.
Proof.
  intros K self score out Hws.
  destruct (GetGradients_cells K (L1loss self) score out Hws)
    as (out' & Erun & _ & _ & Hin & _).
  exists out'. split; [exact Erun|].
  intros i s l w Hi Ein d. destruct (Hin i s l w Hi Ein) as [Eg Eh].
  simpl in Eg, Eh. unfold L1_cell in Eg, Eh. simpl in Eg, Eh.
  fold d in Eg, Eh.
  eexists. split; [exact Eg|]. split; [exact Eh|].
  destruct w as [w|].
  - split; [reflexivity|].
    assert (Habs : SFabs (if SFleb IEEE.zero d then w else SFopp w) = SFabs w).
    { destruct (SFleb IEEE.zero d); [reflexivity|apply SFabs_SFopp]. }
    split; [exact Habs|]. split.
    + intros Hs. rewrite Habs. apply SFabs_sign_clear, Hs.
    + intros sign ->. reflexivity.
  - split; [reflexivity|]. split.
    + destruct (SFleb IEEE.zero d); reflexivity.
    + intros sign ->. reflexivity.
Qed.

Lemma L1_GetGradients_spec_witness :
  exists out',
    RegressionL1loss.GetGradients small_utility scenario_L1 scenario_score zeros3 = Some out' /\
    gradients out' !! 1%nat = Some (SFopp IEEE.one32) /\
    gradients out' !! 0%nat = Some IEEE.one32.
Proof.
  destruct (L1_GetGradients_spec small_utility scenario_L1 scenario_score zeros3)
    as (out' & Erun & Hcells).
  { unfold well_sized; simpl. repeat split; try lia. intros ws E; discriminate E. }
  exists out'. split; [exact Erun|]. split.
  - destruct (Hcells 1%nat (IEEE.f64_of_Z 1) (IEEE.f32_of_Z 2) None) as (g & Eg & _ & Hg & _);
      [simpl; lia|reflexivity|].
    rewrite Hg in Eg. exact Eg.
  - destruct (Hcells 0%nat (IEEE.f64_of_Z 1) (IEEE.f32_of_Z 1) None) as (g & Eg & _ & Hg & _);
      [simpl; lia|reflexivity|].
    rewrite Hg in Eg. exact Eg.
Defined.

(** C3, as the claim words it, fails on a negative weight: with label
    0, score 0 and weight -1 the residual is 0, the gradient written is
    the weight, -1, and its absolute value, 1, is not the weight. *)
Lemma L1_abs_gradient_is_not_weight :
  exists (out' : Out (H := IEEE.arith)) (g w : spec_float),
    RegressionL1loss.GetGradients small_utility negative_weight_L1 [IEEE.zero] zeros1
      = Some out' /\
    RegressionL1loss.weights_ negative_weight_L1 = Some [w] /\
    gradients out' !! 0%nat = Some g /\
    SFabs g <> w.
Proof.
  eexists. exists (IEEE.f32_of_Z (-1)), (IEEE.f32_of_Z (-1)).
  split; [reflexivity|]. split; [reflexivity|]. split; [reflexivity|].
  discriminate.
Qed.

(** ** Huber loss *)

Lemma flip_compare (p q : positive) :
  Pos.compare_cont Eq q p = CompOpp (Pos.compare_cont Eq p q).
Proof. symmetry. apply (Pos.compare_cont_antisym p q Eq). Qed.

Lemma SFcompare_Lt_Gt x y : SFcompare x y = Some Lt -> SFcompare y x = Some Gt.
Proof.
  destruct x as [sx|sx| |sx mx ex], y as [sy|sy| |sy my ey]; simpl;
    try destruct sx; try destruct sy; try congruence.
  - rewrite (Z.compare_antisym ex ey), (flip_compare mx my).
    destruct (ex ?= ey); simpl; try congruence.
    destruct (Pos.compare_cont Eq mx my); simpl; congruence.
  - rewrite (Z.compare_antisym ex ey), (flip_compare mx my).
    destruct (ex ?= ey); simpl; try congruence.
    destruct (Pos.compare_cont Eq mx my); simpl; congruence.
Qed.

(** [a < b] excludes [b <= a]. *)
Lemma SFltb_not_SFleb x y : SFltb x y = true -> SFleb y x = false.
Proof.
  unfold SFltb, SFleb. destruct (SFcompare x y) as [[| |]|] eqn:E; try discriminate.
  intros _. rewrite (SFcompare_Lt_Gt _ _ E). reflexivity.
Qed.

(** [a == b] gives [a <= b]. *)
Lemma SFeqb_SFleb x y : SFeqb x y = true -> SFleb x y = true.
Proof.
  unfold SFeqb, SFleb. destruct (SFcompare x y) as [[| |]|]; congruence.
Qed.

(** A number whose absolute value equals a positive [delta] is [delta]
    or [-delta]. *)
Lemma abs_eq_cases d delta :
  IEEE.is_pos delta = true -> SFeqb (SFabs d) delta = true ->
  (d = delta /\ SFleb IEEE.zero d = true) \/
  (d = SFopp delta /\ SFleb IEEE.zero d = false).
Proof.
  destruct delta as [sd|sd| |sd md ed]; try discriminate;
    destruct sd; try discriminate; intros _;
    destruct d as [s|s| |s m e]; try discriminate.
  - destruct s; intros _; [right|left]; split; reflexivity.
  - unfold SFeqb. simpl.
    destruct (e ?= ed) eqn:Ee; try discriminate.
    destruct (Pos.compare_cont Eq m md) eqn:Em; try discriminate.
    apply Z.compare_eq in Ee. apply Pos.compare_eq in Em. subst.
    destruct s; intros _; [right|left]; split; reflexivity.
Qed.

(** C2, as the code has it.  Huber loss ("huber"), in the arithmetic of
    the compiled code and for every smoothing utility: on buffers that
    hold [num_data_] cells a call returns and has written, at every
    index [i < num_data_] with [d = score[i] - label_[i]]:
    - if [|d| <= delta]: without weights [gradients[i]] is [d] cast to
      [score_t] and [hessians[i]] is [1.0f], both exactly what the
      squared-error objective bound to the same vectors writes; with
      weights [gradients[i]] is the [double] product [d * weights_[i]]
      cast to [score_t] and [hessians[i]] is [weights_[i]], the hessian
      being exactly what squared error writes;
    - if [|d| > delta]: [gradients[i]] is [delta] if [d >= 0] and
      [-delta] otherwise, times [weights_[i]] in [double] when weights
      are bound, cast to [score_t], however large [|d|] is, and
      [hessians[i]] is the utility applied to that gradient, cast to
      [score_t].
    When nothing is rounded, gradient and hessian at an index with
    [|d| <= delta] are those of squared error, with weights or without. *)
Theorem Huber_GetGradients_spec :
  (forall (K : SmoothingUtility (H := IEEE.arith)) (self : RegressionHuberLoss.t)
         (score : list spec_float) (out : Out (H := IEEE.arith)),
    well_sized (H := IEEE.arith) (Z.to_nat (RegressionHuberLoss.num_data_ self)) score
      (RegressionHuberLoss.label_ self) (RegressionHuberLoss.weights_ self) out ->
    exists out' out2,
      RegressionHuberLoss.GetGradients K self score out = Some out' /\
      RegressionL2loss.GetGradients (L2_of_Huber self) score out = Some out2 /\
      forall (i : nat) (s l : spec_float) (w : option spec_float),
        (i < Z.to_nat (RegressionHuberLoss.num_data_ self))%nat ->
        inputs_at (H := IEEE.arith) score (RegressionHuberLoss.label_ self)
          (RegressionHuberLoss.weights_ self) i = Some (s, l, w) ->
        let delta := RegressionHuberLoss.delta_ self in
        let d := SFsub IEEE.prec64 IEEE.emax64 s (IEEE.to_double l) in
        (SFleb (SFabs d) delta = true ->
           hessians out' !! i = hessians out2 !! i /\
           match w with
           | None =>
               gradients out' !! i = Some (IEEE.to_float d) /\
               hessians out' !! i = Some IEEE.one32 /\
               gradients out' !! i = gradients out2 !! i
           | Some w =>
               gradients out' !! i =
                 Some (IEEE.to_float (SFmul IEEE.prec64 IEEE.emax64 d (IEEE.to_double w))) /\
               hessians out' !! i = Some w
           end) /\
        (SFltb delta (SFabs d) = true ->
           exists g,
             gradients out' !! i = Some g /\
             hessians out' !! i =
               Some (IEEE.to_float (K s l g (RegressionHuberLoss.eta_ self) w)) /\
             g = match w with
                 | None =>
                     if SFleb IEEE.zero d then IEEE.to_float delta
                     else IEEE.to_float (SFopp delta)
                 | Some w =>
                     if SFleb IEEE.zero d
                     then IEEE.to_float (SFmul IEEE.prec64 IEEE.emax64 delta (IEEE.to_double w))
                     else IEEE.to_float (SFmul IEEE.prec64 IEEE.emax64 (SFopp delta)
                                           (IEEE.to_double w))
                 end)) /\
  (forall (K : SmoothingUtility (H := Exact.arith)) (self : RegressionHuberLoss.t)
          (score : list Q) (out : Out (H := Exact.arith)),
     well_sized (H := Exact.arith) (Z.to_nat (RegressionHuberLoss.num_data_ self)) score
       (RegressionHuberLoss.label_ self) (RegressionHuberLoss.weights_ self) out ->
     exists out' out2,
       RegressionHuberLoss.GetGradients K self score out = Some out' /\
       RegressionL2loss.GetGradients (L2_of_Huber self) score out = Some out2 /\
       forall (i : nat) (s l : Q) (w : option Q),
         (i < Z.to_nat (RegressionHuberLoss.num_data_ self))%nat ->
         inputs_at (H := Exact.arith) score (RegressionHuberLoss.label_ self)
           (RegressionHuberLoss.weights_ self) i = Some (s, l, w) ->
         Qle_bool (Qabs (s - l)) (RegressionHuberLoss.delta_ self) = true ->
         gradients out' !! i = gradients out2 !! i /\
         hessians out' !! i = hessians out2 !! i).
Proof.
  split.
  { intros K self score out Hws.
    destruct (GetGradients_cells K (HuberLoss self) score out Hws)
      as (out' & Erun & _ & _ & Hin & _).
    destruct (GetGradients_cells K (L2loss (L2_of_Huber self)) score out Hws)
      as (out2 & Erun2 & _ & _ & Hin2 & _).
    exists out', out2. split; [exact Erun|]. split; [exact Erun2|].
    intros i s l w Hi Ein delta d.
    destruct (Hin i s l w Hi Ein) as [Eg Eh].
    destruct (Hin2 i s l w Hi Ein) as [Eg2 Eh2].
    simpl in Eg, Eh, Eg2, Eh2. unfold Huber_cell in Eg, Eh. unfold L2_cell in Eg2, Eh2.
    simpl in Eg, Eh, Eg2, Eh2. fold delta in Eg, Eh. fold d in Eg, Eh, Eg2, Eh2.
    split.
    - intros Hq. rewrite Hq in Eg, Eh. destruct w as [w|]; simpl in *.
      + split; [congruence|]. split; assumption.
      + split; [congruence|]. split; [assumption|]. split; [assumption|congruence].
    - intros Hl. apply SFltb_not_SFleb in Hl. rewrite Hl in Eg, Eh.
      eexists. split; [exact Eg|]. split; [exact Eh|].
      destruct w; reflexivity. }
  intros K self score out Hws.
  destruct (GetGradients_cells K (HuberLoss self) score out Hws)
    as (out' & Erun & _ & _ & Hin & _).
  destruct (GetGradients_cells K (L2loss (L2_of_Huber self)) score out Hws)
    as (out2 & Erun2 & _ & _ & Hin2 & _).
  exists out', out2. split; [exact Erun|]. split; [exact Erun2|].
  intros i s l w Hi Ein Hq.
  destruct (Hin i s l w Hi Ein) as [Eg Eh].
  destruct (Hin2 i s l w Hi Ein) as [Eg2 Eh2].
  cbn [cell] in Eg, Eh, Eg2, Eh2.
  assert (Ecell : Huber_cell (H := Exact.arith) K (RegressionHuberLoss.delta_ self)
                    (RegressionHuberLoss.eta_ self) s l w
                  = L2_cell (H := Exact.arith) s l w).
  { change (dle (Arith := Exact.arith)
              (dabs (Arith := Exact.arith)
                 (dsub (Arith := Exact.arith) s (d_of_f (Arith := Exact.arith) l)))
              (RegressionHuberLoss.delta_ self) = true) in Hq.
    unfold Huber_cell, L2_cell. cbv zeta. rewrite Hq. destruct w; reflexivity. }
  rewrite Ecell in Eg, Eh.
  split; [exact (eq_trans Eg (eq_sym Eg2))|exact (eq_trans Eh (eq_sym Eh2))].
Qed.

Lemma Huber_GetGradients_spec_witness :
  exists out',
    RegressionHuberLoss.GetGradients small_utility scenario_Huber scenario_score zeros3
      = Some out' /\
    gradients out' !! 1%nat = Some (IEEE.f32_of_Z (-1)) /\
    hessians out' !! 1%nat = Some IEEE.one32 /\
    gradients out' !! 2%nat = Some (IEEE.f32_of_Z (-1)).
Proof.
  destruct (proj1 Huber_GetGradients_spec small_utility scenario_Huber scenario_score zeros3)
    as (out' & out2 & Erun & _ & Hcells).
  { unfold well_sized; simpl. repeat split; try lia. intros ws E; discriminate E. }
  exists out'. split; [exact Erun|].
  destruct (Hcells 1%nat (IEEE.f64_of_Z 1) (IEEE.f32_of_Z 2) None) as [Hq _];
    [simpl; lia|reflexivity|].
  destruct (Hq eq_refl) as (_ & Eg1 & Eh1 & _).
  destruct (Hcells 2%nat (IEEE.f64_of_Z 1) (IEEE.f32_of_Z 3) None) as [_ Hl];
    [simpl; lia|reflexivity|].
  destruct (Hl eq_refl) as (g & Eg2 & _ & Hg).
  split; [exact Eg1|]. split; [exact Eh1|].
  rewrite Hg in Eg2. exact Eg2.
Defined.

(** C2, as the claim words it, fails with weights: with label 0, score
    1 + 2^-24, weight 3 and [delta = 2] the residual is within [delta],
    squared error writes the gradient 3 (the residual is first rounded
    to [float], to 1, then multiplied) and Huber writes 3 + 2^-22 (the
    product is taken in [double], then rounded). *)
Lemma Huber_weighted_gradient_is_not_L2 :
  exists (outh out2 : Out (H := IEEE.arith)) (d gh g2 : spec_float),
    RegressionHuberLoss.GetGradients small_utility halfway_Huber halfway_score zeros1
      = Some outh /\
    RegressionL2loss.GetGradients halfway_L2 halfway_score zeros1 = Some out2 /\
    d = SFsub IEEE.prec64 IEEE.emax64 (IEEE.f64_of_pow2 (2 ^ 24 + 1) (-24))
          (IEEE.to_double IEEE.zero) /\
    SFleb (SFabs d) (RegressionHuberLoss.delta_ halfway_Huber) = true /\
    gradients outh !! 0%nat = Some gh /\
    gradients out2 !! 0%nat = Some g2 /\
    g2 = IEEE.f32_of_Z 3 /\
    SFeqb gh g2 = false.
Proof.
  do 2 eexists. exists (IEEE.f64_of_pow2 (2 ^ 24 + 1) (-24)).
  do 2 eexists.
  split; [reflexivity|]. split; [reflexivity|]. split; [reflexivity|].
  split; [reflexivity|]. split; [reflexivity|]. split; [reflexivity|].
  split; reflexivity.
Qed.


(** ** Every call overwrites every cell *)

Section Frame.
Context `{Arith}.
Variable ApproximateHessianWithGaussian : SmoothingUtility.

Lemma store_Some_inv {A} (a a' : list A) i v :
  store a i v = Some a' -> (i < length a)%nat /\ a' = <[i:=v]> a.
Proof.
  unfold store. destruct (Nat.ltb_spec i (length a)); [|discriminate].
  intros [= <-]. split; [assumption|reflexivity].
Qed.

Lemma write_Some_inv i g h (o o' : Out) :
  write i g h o = Some o' ->
  (i < length (gradients o))%nat /\ (i < length (hessians o))%nat /\
  o' = mkOut _ (<[i:=g]> (gradients o)) (<[i:=h]> (hessians o)).
Proof.
  unfold write. destruct (store (gradients o) i g) as [gs|] eqn:Eg; [|discriminate].
  cbn [mbind option_bind].
  destruct (store (hessians o) i h) as [hs|] eqn:Eh; [|discriminate].
  cbn [mbind option_bind]. intros [= <-].
  apply store_Some_inv in Eg, Eh. destruct Eg as [? ->], Eh as [? ->]. auto.
Qed.

Lemma inputs_at_Some_inv score label weights j s l w :
  inputs_at score label weights j = Some (s, l, w) ->
  (j < length score)%nat /\ (j < length label)%nat /\
  (forall ws, weights = Some ws -> (j < length ws)%nat).
Proof.
  unfold inputs_at, load.
  destruct (score !! j) eqn:Es; [|discriminate].
  destruct (label !! j) eqn:El; [|discriminate].
  cbn [mbind option_bind]. intros E.
  split; [eapply lookup_lt_Some; eassumption|].
  split; [eapply lookup_lt_Some; eassumption|].
  intros ws ->. destruct (ws !! j) eqn:Ew; [|discriminate].
  eapply lookup_lt_Some; eassumption.
Qed.

(** A loop that returns has met no access out of bounds. *)
Lemma for_from_cells_inv f score label weights n :
  forall i out out',
  for_from (cells_body f score label weights) i n out = Some out' ->
  forall j, (i <= j < i + n)%nat ->
    (j < length score)%nat /\ (j < length label)%nat /\
    (forall ws, weights = Some ws -> (j < length ws)%nat) /\
    (j < length (gradients out))%nat /\ (j < length (hessians out))%nat.
Proof.
  induction n as [|n IH]; intros i out out' Erun j Hj; [lia|].
  rewrite for_from_S in Erun.
  destruct (cells_body f score label weights i out) as [out1|] eqn:Estep; [|discriminate].
  cbn [mbind option_bind] in Erun.
  unfold cells_body in Estep.
  destruct (inputs_at score label weights i) as [[[s l] w]|] eqn:Ein; [|discriminate].
  cbn [mbind option_bind] in Estep.
  apply write_Some_inv in Estep. destruct Estep as (Hg & Hh & ->).
  destruct (decide (j = i)) as [->|Hne].
  - apply inputs_at_Some_inv in Ein. destruct Ein as (? & ? & ?). auto.
  - specialize (IH (S i) _ _ Erun j). simpl in IH. rewrite !length_insert in IH.
    apply IH. lia.
Qed.

Lemma GetGradients_Some_well_sized self score out out' :
  GetGradients ApproximateHessianWithGaussian self score out = Some out' ->
  well_sized (Z.to_nat (num_data self)) score (bound_label self) (bound_weights self) out.
Proof.
  rewrite GetGradients_loop. intros Erun.
  pose proof (for_from_cells_inv _ _ _ _ _ _ _ _ Erun) as Hall.
  destruct (Z.to_nat (num_data self)) as [|n] eqn:En.
  - unfold well_sized. repeat split; intros; lia.
  - destruct (Hall n) as (? & ? & Hw & ? & ?); [lia|].
    unfold well_sized. repeat split; try lia.
    intros ws E. specialize (Hw ws E). lia.
Qed.

Lemma same_config_cell a b :
  same_config a b ->
  cell ApproximateHessianWithGaussian a = cell ApproximateHessianWithGaussian b.
Proof.
  destruct a, b; simpl; try contradiction.
  - reflexivity.
  - intros ->. reflexivity.
  - intros [-> ->]. reflexivity.
  - intros ->. reflexivity.
Qed.

(** A second call on the buffers a first call has filled changes
    nothing. *)
Lemma GetGradients_again self score out out' :
  GetGradients ApproximateHessianWithGaussian self score out = Some out' ->
  GetGradients ApproximateHessianWithGaussian self score out' = Some out'.
Proof.
  intros Erun.
  pose proof (GetGradients_Some_well_sized _ _ _ _ Erun) as Hws.
  destruct (GetGradients_cells ApproximateHessianWithGaussian self score out Hws)
    as (o1 & E1 & Lg & Lh & Hin & Hout).
  rewrite Erun in E1. injection E1 as <-.
  assert (Hws' : well_sized (Z.to_nat (num_data self)) score (bound_label self)
                   (bound_weights self) out').
  { destruct Hws as (? & ? & ? & ? & ?). unfold well_sized.
    rewrite Lg, Lh. auto. }
  destruct (GetGradients_cells ApproximateHessianWithGaussian self score out' Hws')
    as (o2 & E2 & _ & _ & Hin2 & Hout2).
  rewrite E2. f_equal.
  assert (Hg : gradients o2 = gradients out' /\ hessians o2 = hessians out').
  { split; apply list_eq; intros j;
      destruct (decide (j < Z.to_nat (num_data self))%nat) as [Hj|Hj].
    - destruct (inputs_at_Some _ _ _ j _ _ Hws Hj) as (s & l & w & Ein & _).
      destruct (Hin j s l w Hj Ein) as [-> _].
      destruct (Hin2 j s l w Hj Ein) as [-> _]. reflexivity.
    - apply Hout2. lia.
    - destruct (inputs_at_Some _ _ _ j _ _ Hws Hj) as (s & l & w & Ein & _).
      destruct (Hin j s l w Hj Ein) as [_ ->].
      destruct (Hin2 j s l w Hj Ein) as [_ ->]. reflexivity.
    - apply Hout2. lia. }
  destruct Hg as [Hg Hh]. destruct o2, out'. simpl in *. congruence.
Qed.

End Frame.

(** C7.  For every class, every arithmetic and every smoothing utility:
    on buffers that hold [num_data_] cells a call of [GetGradients]
    returns; a call that returns has kept the sizes of both output
    buffers and has written both [gradients[i]] and [hessians[i]] at
    every index [i < num_data_], none left as it was; what is written at
    [i] is the cell function of the class applied to [score[i]],
    [label_[i]] and [weights_[i]] (absent when no weights are bound):
    a second call, by an objective of the same class and configuration
    bound to other vectors, writes the same pair at any index where it
    reads the same three values. *)
Theorem GetGradients_overwrites_every_index :
  forall (A : Arith) (K : SmoothingUtility) (self : ObjectiveFunction)
         (score : list double) (out : Out),
    (well_sized (Z.to_nat (num_data self)) score (bound_label self)
       (bound_weights self) out ->
     exists out', GetGradients K self score out = Some out') /\
    forall out', GetGradients K self score out = Some out' ->
      length (gradients out') = length (gradients out) /\
      length (hessians out') = length (hessians out) /\
      (forall i, (i < Z.to_nat (num_data self))%nat ->
         exists s l w,
           inputs_at score (bound_label self) (bound_weights self) i = Some (s, l, w) /\
           gradients out' !! i = Some (cell K self s l w).1 /\
           hessians out' !! i = Some (cell K self s l w).2) /\
      (forall (self2 : ObjectiveFunction) (score2 : list double) (out2 out2' : Out)
              (i j : nat),
         same_config self self2 ->
         GetGradients K self2 score2 out2 = Some out2' ->
         (i < Z.to_nat (num_data self))%nat -> (j < Z.to_nat (num_data self2))%nat ->
         inputs_at score (bound_label self) (bound_weights self) i =
         inputs_at score2 (bound_label self2) (bound_weights self2) j ->
         gradients out' !! i = gradients out2' !! j /\
         hessians out' !! i = hessians out2' !! j).
Proof.
  intros A K self score out. split.
  - intros Hws. destruct (GetGradients_cells K self score out Hws) as (out' & Erun & _).
    exists out'. exact Erun.
  - intros out' Erun.
    pose proof (GetGradients_Some_well_sized K _ _ _ _ Erun) as Hws.
    destruct (GetGradients_cells K self score out Hws)
      as (o1 & E1 & Lg & Lh & Hin & _).
    rewrite Erun in E1. injection E1 as <-.
    split; [exact Lg|]. split; [exact Lh|]. split.
    + intros i Hi.
      destruct (inputs_at_Some _ _ _ i _ _ Hws Hi) as (s & l & w & Ein & _).
      exists s, l, w. split; [exact Ein|]. apply Hin; assumption.
    + intros self2 score2 out2 out2' i j Hcfg Erun2 Hi Hj Esame.
      pose proof (GetGradients_Some_well_sized K _ _ _ _ Erun2) as Hws2.
      destruct (GetGradients_cells K self2 score2 out2 Hws2)
        as (o2 & E2 & _ & _ & Hin2 & _).
      rewrite Erun2 in E2. injection E2 as <-.
      destruct (inputs_at_Some _ _ _ i _ _ Hws Hi) as (s & l & w & Ein & _).
      rewrite Ein in Esame. symmetry in Esame.
      destruct (Hin i s l w Hi Ein) as [-> ->].
      destruct (Hin2 j s l w Hj Esame) as [-> ->].
      rewrite (same_config_cell K _ _ Hcfg). split; reflexivity.
Qed.

Lemma GetGradients_overwrites_every_index_witness :
  exists out',
    GetGradients small_utility (HuberLoss scenario_Huber) scenario_score zeros3 = Some out'.
Proof.
  apply (proj1 (GetGradients_overwrites_every_index IEEE.arith small_utility
                  (HuberLoss scenario_Huber) scenario_score zeros3)).
  unfold well_sized; simpl. repeat split; try lia. intros ws E; discriminate E.
Defined.

(** C8.  For every class, every arithmetic and every smoothing utility
    (a function of its five arguments): a call of [GetGradients] that
    returns leaves the objective, the score vector and the bound label
    and weight vectors as they were; the same call made again, on the
    buffers the first one filled, returns the very same buffers; and a
    call by the same objective on the same score vector, whatever the
    output buffers of sufficient size held before, writes the same
    gradient and hessian at every index [i < num_data_]. *)
Theorem GetGradients_deterministic_stateless :
  forall (A : Arith) (K : SmoothingUtility) (w w' : World),
    call_GetGradients K w = Some w' ->
    this w' = this w /\
    score_buffer w' = score_buffer w /\
    bound_label (this w') = bound_label (this w) /\
    bound_weights (this w') = bound_weights (this w) /\
    call_GetGradients K w' = Some w' /\
    forall v : World,
      this v = this w -> score_buffer v = score_buffer w ->
      (Z.to_nat (num_data (this w)) <= length (gradients (out_buffer v)))%nat ->
      (Z.to_nat (num_data (this w)) <= length (hessians (out_buffer v)))%nat ->
      exists v',
        call_GetGradients K v = Some v' /\
        forall i, (i < Z.to_nat (num_data (this w)))%nat ->
          gradients (out_buffer v') !! i = gradients (out_buffer w') !! i /\
          hessians (out_buffer v') !! i = hessians (out_buffer w') !! i.
Proof.
  intros A K w w' Ecall. unfold call_GetGradients in Ecall.
  destruct (GetGradients K (this w) (score_buffer w) (out_buffer w)) as [out'|] eqn:Erun;
    [|discriminate].
  cbn [mbind option_bind] in Ecall. injection Ecall as <-. simpl.
  repeat (split; [reflexivity|]). split.
  - unfold call_GetGradients. simpl.
    rewrite (GetGradients_again K _ _ _ _ Erun). reflexivity.
  - intros v Hthis Hscore Hg Hh.
    pose proof (GetGradients_Some_well_sized K _ _ _ _ Erun) as Hws.
    destruct (GetGradients_cells K _ _ _ Hws) as (o1 & E1 & _ & _ & Hin & _).
    rewrite Erun in E1. injection E1 as <-.
    assert (Hwsv : well_sized (Z.to_nat (num_data (this w))) (score_buffer w)
                     (bound_label (this w)) (bound_weights (this w)) (out_buffer v)).
    { destruct Hws as (? & ? & ? & _ & _). unfold well_sized. auto. }
    destruct (GetGradients_cells K _ _ _ Hwsv) as (o2 & E2 & _ & _ & Hin2 & _).
    exists (mkWorld _ (this v) (score_buffer v) o2). split.
    + unfold call_GetGradients. rewrite Hthis, Hscore, E2. reflexivity.
    + intros i Hi. simpl.
      destruct (inputs_at_Some _ _ _ i _ _ Hws Hi) as (s & l & x & Ein & _).
      destruct (Hin i s l x Hi Ein) as [-> ->].
      destruct (Hin2 i s l x Hi Ein) as [-> ->]. split; reflexivity.
Qed.

Lemma GetGradients_deterministic_stateless_witness :
  exists w',
    call_GetGradients small_utility
      (mkWorld IEEE.arith (L1loss scenario_L1) scenario_score zeros3) = Some w' /\
    call_GetGradients small_utility w' = Some w'.
Proof.
  eexists. split; [reflexivity|].
  apply (GetGradients_deterministic_stateless IEEE.arith small_utility
           (mkWorld IEEE.arith (L1loss scenario_L1) scenario_score zeros3)).
  reflexivity.
Defined.

(** ** Names *)

(** C9.  [GetName] returns "regression" for squared error,
    "regression_l1" for absolute error, "huber" for Huber and "fair"
    for Fair, whatever the fields of the object hold (configuration,
    bound vectors, number of examples); [Init] and a call of
    [GetGradients] leave the name as it was. *)
Theorem GetName_spec :
  forall (A : Arith) (K : SmoothingUtility),
    (forall o, GetName (L2loss o) = "regression"%string) /\
    (forall o, GetName (L1loss o) = "regression_l1"%string) /\
    (forall o, GetName (HuberLoss o) = "huber"%string) /\
    (forall o, GetName (FairLoss o) = "fair"%string) /\
    (forall self metadata n, GetName (Init self metadata n) = GetName self) /\
    (forall w w', call_GetGradients K w = Some w' -> GetName (this w') = GetName (this w)).
Proof.
  intros A K. repeat (split; [reflexivity|]). split.
  - intros [o|o|o|o] metadata n; reflexivity.
  - intros w w' Ecall. unfold call_GetGradients in Ecall.
    destruct (GetGradients K (this w) (score_buffer w) (out_buffer w)); [|discriminate].
    injection Ecall as <-. reflexivity.
Qed.

Lemma GetName_spec_witness :
  GetName (Init (HuberLoss (RegressionHuberLoss.new scenario_config)) scenario_metadata 3)
    = "huber"%string /\
  exists w',
    call_GetGradients small_utility
      (mkWorld IEEE.arith (FairLoss scenario_Fair) scenario_score zeros3) = Some w' /\
    GetName (this w') = "fair"%string.
Proof.
  destruct (GetName_spec IEEE.arith small_utility) as (_ & _ & Hh & Hf & Hinit & Hcall).
  split.
  - rewrite Hinit. apply Hh.
  - eexists. split; [reflexivity|].
    rewrite (Hcall (mkWorld IEEE.arith (FairLoss scenario_Fair) scenario_score zeros3) _ eq_refl).
    apply Hf.
Defined.

(** ** Rounding keeps the sign *)

Lemma shr_1_nonneg r : 0 <= shr_m r -> 0 <= shr_m (shr_1 r).
Proof.
  destruct r as [m b s]. simpl. destruct m as [|[p|p|]|p]; simpl; lia.
Qed.

Lemma iter_pos_shr_1_nonneg p :
  forall r, 0 <= shr_m r -> 0 <= shr_m (SpecFloat.iter_pos shr_1 p r).
Proof.
  induction p as [p IH|p IH|]; intros r Hr; simpl.
  - apply IH, IH, shr_1_nonneg, Hr.
  - apply IH, IH, Hr.
  - apply shr_1_nonneg, Hr.
Qed.

Lemma shr_fexp_nonneg prec emax m e l :
  0 <= m -> 0 <= shr_m (fst (shr_fexp prec emax m e l)).
Proof.
  intros Hm. unfold shr_fexp, shr.
  assert (H0 : 0 <= shr_m (shr_record_of_loc m l)).
  { destruct l as [|[| |]]; exact Hm. }
  destruct (fexp prec emax (Zdigits2 m + e) - e); simpl; try exact H0.
  apply iter_pos_shr_1_nonneg, H0.
Qed.

Lemma round_nearest_even_nonneg m l : 0 <= m -> 0 <= round_nearest_even m l.
Proof.
  intros Hm. destruct l as [|[| |]]; simpl; try lia.
  destruct (Z.even m); lia.
Qed.

(** The result of rounding a non-negative mantissa has the sign it was
    given and is a number. *)
Lemma binary_round_aux_signed prec emax sx mx ex lx :
  0 <= mx -> signed_number sx (binary_round_aux prec emax sx mx ex lx).
Proof.
  intros Hm. unfold binary_round_aux.
  pose proof (shr_fexp_nonneg prec emax mx ex lx Hm) as H1.
  destruct (shr_fexp prec emax mx ex lx) as [mrs' e']. simpl in H1.
  pose proof (shr_fexp_nonneg prec emax
                (round_nearest_even (shr_m mrs') (loc_of_shr_record mrs')) e' loc_Exact
                (round_nearest_even_nonneg _ _ H1)) as H2.
  destruct (shr_fexp prec emax (round_nearest_even (shr_m mrs') (loc_of_shr_record mrs'))
              e' loc_Exact) as [mrs'' e'']. simpl in H2.
  destruct (shr_m mrs'') as [|m|m].
  - left. reflexivity.
  - destruct (e'' <=? emax - prec); [right; left; eauto|right; right; reflexivity].
  - lia.
Qed.

Lemma binary_round_signed prec emax sx mx ex :
  signed_number sx (binary_round prec emax sx mx ex).
Proof.
  unfold binary_round.
  destruct (shl_align mx ex (fexp prec emax (Z.pos (digits2_pos mx) + ex))) as [mz ez].
  apply binary_round_aux_signed. lia.
Qed.

(** The cast of a positive [double] to [float] is not negative and not
    NaN; it may be zero. *)
Lemma to_float_of_pos x : IEEE.is_pos x = true -> IEEE.is_nonneg (IEEE.to_float x) = true.
Proof.
  destruct x as [s|s| |s m e]; try discriminate; destruct s; try discriminate.
  - reflexivity.
  - intros _. unfold IEEE.to_float, IEEE.convert.
    destruct (binary_round_signed IEEE.prec32 IEEE.emax32 false m e)
      as [->|[(m' & e' & ->)| ->]]; reflexivity.
Qed.

Lemma is_finite_SFopp x : IEEE.is_finite (SFopp x) = IEEE.is_finite x.
Proof. destruct x; reflexivity. Qed.

Lemma small_utility_strictly_positive : strictly_positive small_utility.
Proof. intros s l g eta w _ _ _ _ _. reflexivity. Qed.

(** ** Hessians from the smoothing utility *)

(** C5, as the code has it.  Let the smoothing utility meet its
    contract: a strictly positive result on finite arguments.  In the
    arithmetic of the compiled code, for finite [score[i]], [label_[i]],
    [weights_[i]] and [eta]: absolute error at every index, and Huber
    at every index with [|d| > delta] whose gradient is finite, write
    as [hessians[i]] the cast to [score_t] of the utility's strictly
    positive result; the value written is not negative and not NaN, and
    it can be zero, when the cast underflows.  When nothing is
    rounded, the hessians those two objectives take from the utility are
    strictly positive. *)
Theorem smoothed_hessians_not_negative :
  (forall K : SmoothingUtility (H := IEEE.arith), strictly_positive K ->
     (forall (self : RegressionL1loss.t) (score : list spec_float) (out : Out),
        well_sized (H := IEEE.arith) (Z.to_nat (RegressionL1loss.num_data_ self)) score
          (RegressionL1loss.label_ self) (RegressionL1loss.weights_ self) out ->
        IEEE.is_finite (RegressionL1loss.eta_ self) = true ->
        exists out',
          RegressionL1loss.GetGradients K self score out = Some out' /\
          forall (i : nat) (s l : spec_float) (w : option spec_float),
            (i < Z.to_nat (RegressionL1loss.num_data_ self))%nat ->
            inputs_at (H := IEEE.arith) score (RegressionL1loss.label_ self)
              (RegressionL1loss.weights_ self) i = Some (s, l, w) ->
            IEEE.is_finite s = true -> IEEE.is_finite l = true ->
            (forall x, w = Some x -> IEEE.is_finite x = true) ->
            exists g h,
              gradients out' !! i = Some g /\ hessians out' !! i = Some h /\
              h = IEEE.to_float (K s l g (RegressionL1loss.eta_ self) w) /\
              IEEE.is_pos (K s l g (RegressionL1loss.eta_ self) w) = true /\
              IEEE.is_nonneg h = true) /\
     (forall (self : RegressionHuberLoss.t) (score : list spec_float) (out : Out),
        well_sized (H := IEEE.arith) (Z.to_nat (RegressionHuberLoss.num_data_ self)) score
          (RegressionHuberLoss.label_ self) (RegressionHuberLoss.weights_ self) out ->
        IEEE.is_finite (RegressionHuberLoss.eta_ self) = true ->
        exists out',
          RegressionHuberLoss.GetGradients K self score out = Some out' /\
          forall (i : nat) (s l : spec_float) (w : option spec_float),
            (i < Z.to_nat (RegressionHuberLoss.num_data_ self))%nat ->
            inputs_at (H := IEEE.arith) score (RegressionHuberLoss.label_ self)
              (RegressionHuberLoss.weights_ self) i = Some (s, l, w) ->
            IEEE.is_finite s = true -> IEEE.is_finite l = true ->
            (forall x, w = Some x -> IEEE.is_finite x = true) ->
            SFltb (RegressionHuberLoss.delta_ self)
              (SFabs (SFsub IEEE.prec64 IEEE.emax64 s (IEEE.to_double l))) = true ->
            exists g h,
              gradients out' !! i = Some g /\ hessians out' !! i = Some h /\
              h = IEEE.to_float (K s l g (RegressionHuberLoss.eta_ self) w) /\
              (IEEE.is_finite g = true ->
               IEEE.is_pos (K s l g (RegressionHuberLoss.eta_ self) w) = true /\
               IEEE.is_nonneg h = true))) /\
  (forall K : SmoothingUtility (H := Exact.arith), strictly_positive_exact K ->
     (forall (self : RegressionL1loss.t) (score : list Q) (out out' : Out) (i : nat) (h : Q),
        RegressionL1loss.GetGradients K self score out = Some out' ->
        (i < Z.to_nat (RegressionL1loss.num_data_ self))%nat ->
        hessians out' !! i = Some h -> (0 < h)%Q) /\
     (forall (self : RegressionHuberLoss.t) (score : list Q) (out out' : Out)
             (i : nat) (s l h : Q) (w : option Q),
        RegressionHuberLoss.GetGradients K self score out = Some out' ->
        (i < Z.to_nat (RegressionHuberLoss.num_data_ self))%nat ->
        inputs_at (H := Exact.arith) score (RegressionHuberLoss.label_ self)
          (RegressionHuberLoss.weights_ self) i = Some (s, l, w) ->
        Qle_bool (Qabs (s - l)) (RegressionHuberLoss.delta_ self) = false ->
        hessians out' !! i = Some h -> (0 < h)%Q)).
Proof.
  split.
  - intros K HK. split.
    + intros self score out Hws Heta.
      destruct (GetGradients_cells K (L1loss self) score out Hws)
        as (out' & Erun & _ & _ & Hin & _).
      exists out'. split; [exact Erun|].
      intros i s l w Hi Ein Hs Hl Hw. destruct (Hin i s l w Hi Ein) as [Eg Eh].
      simpl in Eg, Eh. unfold L1_cell in Eg, Eh. simpl in Eg, Eh.
      do 2 eexists. split; [exact Eg|]. split; [exact Eh|]. split; [reflexivity|].
      assert (Hpos : IEEE.is_pos
                (K s l match w with
                       | Some w0 =>
                           if SFleb IEEE.zero (SFsub IEEE.prec64 IEEE.emax64 s (IEEE.to_double l))
                           then w0 else SFopp w0
                       | None =>
                           if SFleb IEEE.zero (SFsub IEEE.prec64 IEEE.emax64 s (IEEE.to_double l))
                           then IEEE.one32 else SFopp IEEE.one32
                       end (RegressionL1loss.eta_ self) w) = true).
      { apply HK; try assumption.
        destruct w as [x|];
          destruct (SFleb IEEE.zero (SFsub IEEE.prec64 IEEE.emax64 s (IEEE.to_double l)));
          rewrite ?is_finite_SFopp; auto. }
      split; [exact Hpos|]. apply to_float_of_pos, Hpos.
    + intros self score out Hws Heta.
      destruct (GetGradients_cells K (HuberLoss self) score out Hws)
        as (out' & Erun & _ & _ & Hin & _).
      exists out'. split; [exact Erun|].
      intros i s l w Hi Ein Hs Hl Hw Hlin. destruct (Hin i s l w Hi Ein) as [Eg Eh].
      simpl in Eg, Eh. unfold Huber_cell in Eg, Eh. simpl in Eg, Eh.
      rewrite (SFltb_not_SFleb _ _ Hlin) in Eg, Eh.
      do 2 eexists. split; [exact Eg|]. split; [exact Eh|]. split; [reflexivity|].
      intros Hg.
      match goal with |- IEEE.is_pos ?v = true /\ _ =>
        assert (Hpos : IEEE.is_pos v = true) by (apply HK; assumption) end.
      split; [exact Hpos|]. apply to_float_of_pos, Hpos.
  - intros K HK. split.
    + intros self score out out' i h Erun Hi Eh.
      pose proof (GetGradients_Some_well_sized K (L1loss self) _ _ _ Erun) as Hws.
      destruct (GetGradients_cells K (L1loss self) score out Hws)
        as (o1 & E1 & _ & _ & Hin & _).
      simpl in E1. rewrite Erun in E1. injection E1 as <-.
      destruct (inputs_at_Some _ _ _ i _ _ Hws Hi) as (s & l & w & Ein & _).
      destruct (Hin i s l w Hi Ein) as [_ Eh'].
      simpl in Eh'. pose proof (eq_trans (eq_sym Eh) Eh') as E.
      injection E as ->. apply HK.
    + intros self score out out' i s l h w Erun Hi Ein Hlin Eh.
      pose proof (GetGradients_Some_well_sized K (HuberLoss self) _ _ _ Erun) as Hws.
      destruct (GetGradients_cells K (HuberLoss self) score out Hws)
        as (o1 & E1 & _ & _ & Hin & _).
      simpl in E1. rewrite Erun in E1. injection E1 as <-.
      destruct (Hin i s l w Hi Ein) as [_ Eh'].
      change (dle (Arith := Exact.arith)
                (dabs (Arith := Exact.arith)
                   (dsub (Arith := Exact.arith) s (d_of_f (Arith := Exact.arith) l)))
                (RegressionHuberLoss.delta_ self) = false) in Hlin.
      cbn [cell] in Eh'. unfold Huber_cell in Eh'. cbv zeta in Eh'.
      rewrite Hlin in Eh'. cbn [snd] in Eh'.
      pose proof (eq_trans (eq_sym Eh) Eh') as E.
      injection E as ->. apply HK.
Qed.

Lemma smoothed_hessians_not_negative_witness :
  exists out',
    RegressionL1loss.GetGradients small_utility scenario_L1 scenario_score zeros3 = Some out' /\
    exists h, hessians out' !! 0%nat = Some h /\ IEEE.is_nonneg h = true.
Proof.
  destruct (proj1 (proj1 smoothed_hessians_not_negative small_utility
                     small_utility_strictly_positive)
              scenario_L1 scenario_score zeros3) as (out' & Erun & Hcells).
  { unfold well_sized; simpl. repeat split; try lia. intros ws E; discriminate E. }
  { reflexivity. }
  exists out'. split; [exact Erun|].
  destruct (Hcells 0%nat (IEEE.f64_of_Z 1) (IEEE.f32_of_Z 1) None)
    as (g & h & _ & Eh & _ & _ & Hh);
    [simpl; lia|reflexivity|reflexivity|reflexivity|intros x E; discriminate E|].
  exists h. split; [exact Eh|exact Hh].
Defined.

(** C5, as the claim words it, fails: the utility [small_utility] is
    strictly positive on all inputs, all inputs of the scenario are
    finite, and the hessians written, 2^-200 cast to [float], are zero:
    by absolute error at index 0 and by Huber at index 2, where
    [|d| = 2 > delta = 1]. *)
Lemma smoothed_hessian_can_be_zero :
  strictly_positive small_utility /\
  exists out1 outh : Out (H := IEEE.arith),
    RegressionL1loss.GetGradients small_utility scenario_L1 scenario_score zeros3
      = Some out1 /\
    RegressionHuberLoss.GetGradients small_utility scenario_Huber scenario_score zeros3
      = Some outh /\
    hessians out1 !! 0%nat = Some (S754_zero false) /\
    hessians outh !! 2%nat = Some (S754_zero false) /\
    IEEE.is_pos (S754_zero false) = false.
Proof.
  split; [exact small_utility_strictly_positive|].
  do 2 eexists. repeat (split; [reflexivity|]). reflexivity.
Qed.

(** ** Facts of rational arithmetic used below *)

Section Rationals.
Local Open Scope Q_scope.

Lemma Qabs_bounds x : 0 <= Qabs x /\ - Qabs x <= x /\ x <= Qabs x.
Proof.
  split; [apply Qabs_nonneg|].
  apply Qabs_Qle_condition. apply Qle_refl.
Qed.

Lemma Qle_bool_false x y : Qle_bool x y = false -> y < x.
Proof.
  intros E. apply Qnot_le_lt. intros H. apply Qle_bool_iff in H. congruence.
Qed.

(** [c * x / (|x| + c)] lies strictly between [-c] and [c]. *)
Lemma fair_ratio_bounds c x :
  0 < c -> - c < c * x / (Qabs x + c) /\ c * x / (Qabs x + c) < c.
Proof.
  intros Hc. destruct (Qabs_bounds x) as (Ha & Hl & Hu).
  assert (Hd : 0 < Qabs x + c) by lra.
  split.
  - apply Qlt_shift_div_l; [exact Hd|]. nra.
  - apply Qlt_shift_div_r; [exact Hd|]. nra.
Qed.

Lemma fair_gradient_bound c x w :
  0 < c -> 0 < w -> Qabs (c * x / (Qabs x + c) * w) < c * w.
Proof.
  intros Hc Hw. destruct (fair_ratio_bounds c x Hc) as [Hl Hu].
  apply Qabs_Qlt_condition. split; nra.
Qed.

Lemma fair_curvature_pos c a : 0 < c -> 0 <= a -> 0 < c * c / ((a + c) * (a + c)).
Proof. intros Hc Ha. apply Qlt_shift_div_l; nra. Qed.

Lemma fair_curvature_cancel c a :
  0 < c -> 0 <= a -> c * c / ((a + c) * (a + c)) * ((a + c) * (a + c)) == c * c.
Proof. intros Hc Ha. field. nra. Qed.

Lemma fair_curvature_decreasing c a b :
  0 < c -> 0 <= a -> a < b ->
  c * c / ((b + c) * (b + c)) < c * c / ((a + c) * (a + c)).
Proof.
  intros Hc Ha Hab.
  apply Qlt_shift_div_r; [nra|].
  pose proof (fair_curvature_cancel c a Hc Ha) as E.
  pose proof (fair_curvature_pos c a Hc Ha) as P.
  assert (Hsq : (a + c) * (a + c) < (b + c) * (b + c)) by nra.
  set (u := c * c / ((a + c) * (a + c))) in *.
  set (X1 := (a + c) * (a + c)) in *. set (X2 := (b + c) * (b + c)) in *.
  nra.
Qed.

Lemma fair_curvature_le_one c a : 0 < c -> 0 <= a -> c * c / ((a + c) * (a + c)) <= 1.
Proof. intros Hc Ha. apply Qle_shift_div_r; nra. Qed.

Lemma fair_curvature_at_zero c a : 0 < c -> a == 0 -> c * c / ((a + c) * (a + c)) == 1.
Proof. intros Hc Ha. rewrite Ha. field. lra. Qed.

Lemma fair_curvature_small c a :
  0 < c -> 0 < a -> c * c / ((a + c) * (a + c)) < c / a.
Proof.
  intros Hc Ha. apply Qlt_shift_div_r; [nra|].
  assert (E : c / a * a == c) by (field; lra).
  assert (P : 0 < c / a) by (apply Qlt_shift_div_l; lra).
  assert (Hsq : c * a < (a + c) * (a + c)) by nra.
  set (u := c / a) in *. set (X := (a + c) * (a + c)) in *.
  nra.
Qed.

(** Beyond [|x| = c * w / eps] the weighted curvature is below [eps]. *)
Lemma fair_curvature_limit c a w eps :
  0 < c -> 0 < w -> 0 < eps -> c * w / eps < a ->
  c * c / ((a + c) * (a + c)) * w < eps.
Proof.
  intros Hc Hw He Ha.
  assert (Hq : 0 < c * w / eps) by (apply Qlt_shift_div_l; nra).
  assert (Hpos : 0 < a) by lra.
  pose proof (fair_curvature_small c a Hc Hpos) as Hs.
  assert (E1 : c * w / eps * eps == c * w) by (field; lra).
  assert (E2 : c / a * a == c) by (field; lra).
  assert (P2 : 0 < c / a) by (apply Qlt_shift_div_l; lra).
  set (u := c * c / ((a + c) * (a + c))) in *.
  set (q := c * w / eps) in *. set (r := c / a) in *.
  assert (Hrw : r * w < eps).
  { assert (H1 : q * eps < a * eps) by nra.
    assert (H2 : r * w * a == c * w) by nra.
    assert (H3 : r * w * a < eps * a) by nra.
    nra. }
  nra.
Qed.

End Rationals.

(** ** Fair loss without rounding *)

Section FairExact.
Local Open Scope Q_scope.

(** The cell of the Fair loss on rationals: the ratio [c x / (|x| + c)]
    and the curvature [c c / ((|x| + c) (|x| + c))], each times the
    weight, 1 when no weight is bound. *)
Lemma Fair_cell_exact c s l w :
  let x := s - l in
  let t := c * x / (Qabs x + c) in
  let u := c * c / ((Qabs x + c) * (Qabs x + c)) in
  (Fair_cell (H := Exact.arith) c s l w).1 == t * default 1 w /\
  (Fair_cell (H := Exact.arith) c s l w).2 == u * default 1 w.
Proof.
  destruct w as [w|]; simpl; split; try reflexivity; ring.
Qed.

Lemma Fair_exact_cell_bounds c s l w :
  0 < c -> 0 < default 1 w ->
  let g := (Fair_cell (H := Exact.arith) c s l w).1 in
  let h := (Fair_cell (H := Exact.arith) c s l w).2 in
  Qabs g < c * default 1 w /\ 0 < h /\ h <= default 1 w /\
  (s - l == 0 -> h == default 1 w) /\
  (forall eps, 0 < eps -> c * default 1 w / eps < Qabs (s - l) -> h < eps).
Proof.
  intros Hc Hw g h. destruct (Fair_cell_exact c s l w) as [Eg Eh].
  fold g in Eg. fold h in Eh. cbv zeta in Eg, Eh.
  destruct (Qabs_bounds (s - l)) as (Ha & _ & _).
  pose proof (fair_curvature_pos c _ Hc Ha) as Hu.
  pose proof (fair_curvature_le_one c _ Hc Ha) as Hu1.
  set (u := c * c / ((Qabs (s - l) + c) * (Qabs (s - l) + c))) in *.
  split; [rewrite Eg; apply fair_gradient_bound; assumption|].
  split; [rewrite Eh; nra|]. split; [rewrite Eh; nra|]. split.
  - intros Hx. rewrite Eh.
    assert (E0 : Qabs (s - l) == 0) by (rewrite Hx; reflexivity).
    unfold u. rewrite (fair_curvature_at_zero c _ Hc E0). ring.
  - intros eps He Hfar. rewrite Eh. apply fair_curvature_limit; assumption.
Qed.

Lemma Fair_exact_cell_decreasing c s l w s' l' w' :
  0 < c -> 0 < default 1 w -> default 1 w == default 1 w' ->
  Qabs (s - l) < Qabs (s' - l') ->
  (Fair_cell (H := Exact.arith) c s' l' w').2 < (Fair_cell (H := Exact.arith) c s l w).2.
Proof.
  intros Hc Hw Eqw Hlt.
  destruct (Fair_cell_exact c s l w) as [_ Eh].
  destruct (Fair_cell_exact c s' l' w') as [_ Eh'].
  cbv zeta in Eh, Eh'. rewrite Eh, Eh', <- Eqw.
  destruct (Qabs_bounds (s - l)) as (Ha & _ & _).
  pose proof (fair_curvature_decreasing c _ _ Hc Ha Hlt) as Hdec.
  nra.
Qed.

End FairExact.

(** C6, as the code has it.  Fair loss with [c > 0] and positive weights
    (weight 1 when none is bound), when nothing is rounded: a call on
    buffers that hold [num_data_] cells returns and, at every index
    [i < num_data_] with [x = score[i] - label_[i]]:
    [|gradients[i]| < c * weights_[i]] strictly; [hessians[i]] is
    positive, at most [weights_[i]] and equal to it at [x = 0]; it is
    below any [eps > 0] once [|x| > c * weights_[i] / eps], so it tends
    to 0 as [|x|] grows; and of two indices with equal weights, the one
    with the larger [|x|] has the strictly smaller hessian. *)
Theorem Fair_exact_bounds :
  forall (self : RegressionFairLoss.t (H := Exact.arith)) (score : list Q)
         (out : Out (H := Exact.arith)),
    well_sized (H := Exact.arith) (Z.to_nat (RegressionFairLoss.num_data_ self)) score
      (RegressionFairLoss.label_ self) (RegressionFairLoss.weights_ self) out ->
    (0 < RegressionFairLoss.c_ self)%Q ->
    exists out',
      RegressionFairLoss.GetGradients self score out = Some out' /\
      (forall (i : nat) (s l : Q) (w : option Q) (g h : Q),
         (i < Z.to_nat (RegressionFairLoss.num_data_ self))%nat ->
         inputs_at (H := Exact.arith) score (RegressionFairLoss.label_ self)
           (RegressionFairLoss.weights_ self) i = Some (s, l, w) ->
         (0 < default 1 w)%Q ->
         gradients out' !! i = Some g -> hessians out' !! i = Some h ->
         (Qabs g < RegressionFairLoss.c_ self * default 1 w)%Q /\
         (0 < h)%Q /\ (h <= default 1 w)%Q /\
         ((s - l == 0)%Q -> (h == default 1 w)%Q) /\
         (forall eps, (0 < eps)%Q ->
            (RegressionFairLoss.c_ self * default 1 w / eps < Qabs (s - l))%Q ->
            (h < eps)%Q)) /\
      (forall (i j : nat) (s l s' l' : Q) (w w' : option Q) (h h' : Q),
         (i < Z.to_nat (RegressionFairLoss.num_data_ self))%nat ->
         (j < Z.to_nat (RegressionFairLoss.num_data_ self))%nat ->
         inputs_at (H := Exact.arith) score (RegressionFairLoss.label_ self)
           (RegressionFairLoss.weights_ self) i = Some (s, l, w) ->
         inputs_at (H := Exact.arith) score (RegressionFairLoss.label_ self)
           (RegressionFairLoss.weights_ self) j = Some (s', l', w') ->
         (0 < default 1 w)%Q -> (default 1 w == default 1 w')%Q ->
         hessians out' !! i = Some h -> hessians out' !! j = Some h' ->
         (Qabs (s - l) < Qabs (s' - l'))%Q ->
         (h' < h)%Q).
Proof.
  intros self score out Hws Hc.
  destruct (GetGradients_cells (fun s _ _ _ _ => s) (FairLoss self) score out Hws)
    as (out' & Erun & _ & _ & Hin & _).
  exists out'. split; [exact Erun|]. split.
  - intros i s l w g h Hi Ein Hw Eg Eh.
    destruct (Hin i s l w Hi Ein) as [Eg' Eh'].
    pose proof (eq_trans (eq_sym Eg) Eg') as E1. injection E1 as ->.
    pose proof (eq_trans (eq_sym Eh) Eh') as E2. injection E2 as ->.
    apply (Fair_exact_cell_bounds _ s l w Hc Hw).
  - intros i j s l s' l' w w' h h' Hi Hj Ein Ein' Hw Eqw Eh Eh' Hlt.
    destruct (Hin i s l w Hi Ein) as [_ E1].
    destruct (Hin j s' l' w' Hj Ein') as [_ E2].
    pose proof (eq_trans (eq_sym Eh) E1) as E3. injection E3 as ->.
    pose proof (eq_trans (eq_sym Eh') E2) as E4. injection E4 as ->.
    apply (Fair_exact_cell_decreasing _ s l w s' l' w' Hc Hw Eqw Hlt).
Qed.

Lemma Fair_exact_bounds_witness :
  exists out' g,
    RegressionFairLoss.GetGradients exact_Fair [3%Q] exact_out = Some out' /\
    gradients out' !! 0%nat = Some g /\ (Qabs g < 1 * 2)%Q.
Proof.
  destruct (Fair_exact_bounds exact_Fair [3%Q] exact_out) as (out' & Erun & Hcell & _).
  { unfold well_sized; simpl. repeat split; try lia. intros ws [= <-]. simpl. lia. }
  { reflexivity. }
  pose proof Erun as Eout. vm_compute in Eout. injection Eout as Eout.
  assert (Eg : gradients out' !! 0%nat = Some (6 # 4)%Q) by (rewrite <- Eout; reflexivity).
  assert (Eh : hessians out' !! 0%nat = Some (2 # 16)%Q) by (rewrite <- Eout; reflexivity).
  exists out', (6 # 4)%Q. split; [exact Erun|]. split; [exact Eg|].
  apply (Hcell 0%nat 3%Q 0%Q (Some 2%Q) (6 # 4)%Q (2 # 16)%Q);
    [simpl; lia|reflexivity|reflexivity|exact Eg|exact Eh].
Defined.

(** C6, as the claim words it, fails in the arithmetic of the compiled
    code.  With [c = 1], weight 1, label 0 and score 2^60, [|x| + c]
    rounds to [|x|] and the gradient written is 1, which is
    [c * weight]: the bound is reached.  With [c] the [double] nearest
    to 0.1 the gradient written is the [float] nearest to 0.1, which is
    above [c * weight].  With scores 0 and 2^-60 the two hessians
    written are both 1: the hessian is not strictly decreasing in
    [|x|]. *)
Lemma Fair_bound_reached_when_rounding :
  (exists (out' : Out (H := IEEE.arith)) (g : spec_float),
     RegressionFairLoss.GetGradients far_Fair far_score zeros1 = Some out' /\
     gradients out' !! 0%nat = Some g /\
     SFltb (SFabs (IEEE.to_double g))
       (SFmul IEEE.prec64 IEEE.emax64 (RegressionFairLoss.c_ far_Fair)
          (IEEE.to_double IEEE.one32)) = false /\
     SFeqb (SFabs (IEEE.to_double g))
       (SFmul IEEE.prec64 IEEE.emax64 (RegressionFairLoss.c_ far_Fair)
          (IEEE.to_double IEEE.one32)) = true) /\
  (exists (out' : Out (H := IEEE.arith)) (g : spec_float),
     RegressionFairLoss.GetGradients tenth_Fair far_score zeros1 = Some out' /\
     gradients out' !! 0%nat = Some g /\
     SFltb (SFmul IEEE.prec64 IEEE.emax64 (RegressionFairLoss.c_ tenth_Fair)
              (IEEE.to_double IEEE.one32))
           (SFabs (IEEE.to_double g)) = true) /\
  (exists (out' : Out (H := IEEE.arith)) (h0 h1 : spec_float),
     RegressionFairLoss.GetGradients near_Fair near_score zeros2 = Some out' /\
     hessians out' !! 0%nat = Some h0 /\
     hessians out' !! 1%nat = Some h1 /\
     SFltb (SFabs (SFsub IEEE.prec64 IEEE.emax64 IEEE.zero (IEEE.to_double IEEE.zero)))
           (SFabs (SFsub IEEE.prec64 IEEE.emax64 (IEEE.f64_of_pow2 1 (-60))
                     (IEEE.to_double IEEE.zero))) = true /\
     SFltb h1 h0 = false /\ h1 = h0).
Proof.
  split; [|split].
  - do 2 eexists. repeat (split; [reflexivity|]). reflexivity.
  - do 2 eexists. repeat (split; [reflexivity|]). reflexivity.
  - do 3 eexists. repeat (split; [reflexivity|]). reflexivity.
Qed.

(** ** Huber loss at the threshold *)

Section HuberExact.
Local Open Scope Q_scope.
Variable K : SmoothingUtility (H := Exact.arith).

(** On rationals, without weights, the gradient of the Huber cell is the
    residual clipped to [[-delta, delta]]. *)
Lemma Huber_exact_cases delta eta s l :
  0 < delta ->
  let d := s - l in
  let g := (Huber_cell (H := Exact.arith) K delta eta s l None).1 in
  (- delta <= d /\ d <= delta /\ g = d) \/
  (delta < d /\ g = delta) \/
  (d < - delta /\ g = - delta).
Proof.
  intros Hd d g. unfold g.
  cbv [Huber_cell dle dabs dsub d_of_f dge f_of_d dneg f0 Exact.arith].
  fold d. destruct (Qabs_bounds d) as (Ha & Hl & Hu).
  destruct (Qle_bool (Qabs d) delta) eqn:E1.
  - apply Qle_bool_iff in E1. left. repeat split; lra.
  - apply Qle_bool_false in E1. right.
    destruct (Qle_bool 0 d) eqn:E2.
    + apply Qle_bool_iff in E2. left. split; [|reflexivity].
      rewrite Qabs_pos in E1; assumption.
    + apply Qle_bool_false in E2. right. split; [|reflexivity].
      rewrite Qabs_neg in E1; lra.
Qed.

(** That gradient moves by no more than the residual does. *)
Lemma Huber_exact_lipschitz delta eta s l s' l' :
  0 < delta ->
  Qabs ((Huber_cell (H := Exact.arith) K delta eta s l None).1 -
        (Huber_cell (H := Exact.arith) K delta eta s' l' None).1)
  <= Qabs ((s - l) - (s' - l')).
Proof.
  intros Hd.
  destruct (Huber_exact_cases delta eta s l Hd) as [(?&?&->)|[(?&->)|(?&->)]];
  destruct (Huber_exact_cases delta eta s' l' Hd) as [(?&?&->)|[(?&->)|(?&->)]];
  apply Qabs_Qle_condition;
  (destruct (Qlt_le_dec ((s - l) - (s' - l')) 0) as [Hn|Hp];
   [rewrite (Qabs_neg ((s - l) - (s' - l'))) by lra
   |rewrite (Qabs_pos ((s - l) - (s' - l'))) by lra]); split; lra.
Qed.

(** With a weight the gradient is the gradient without, times the
    weight. *)
Lemma Huber_exact_weighted delta eta s l w :
  (Huber_cell (H := Exact.arith) K delta eta s l (Some w)).1 ==
  (Huber_cell (H := Exact.arith) K delta eta s l None).1 * w.
Proof.
  cbv [Huber_cell dle dabs dsub dmul d_of_f dge f_of_d dneg f0 Exact.arith].
  destruct (Qle_bool (Qabs (s - l)) delta); [reflexivity|].
  destruct (Qle_bool 0 (s - l)); reflexivity.
Qed.

End HuberExact.

(** C10.  In the Huber objective the test of the threshold is
    inclusive: for a positive [delta], at an index whose residual [d]
    has [|d|] equal to [delta], [|d| <= delta] holds and the call takes
    the quadratic branch: whatever the smoothing utility is, it writes
    the hessian [1.0f] (or [weights_[i]]), not a value of the utility,
    and the gradient [d] (times the weight in [double] when weights are
    bound) cast to [score_t]; that gradient is the one the linear
    branch gives for the same residual, [delta] or [-delta] by the sign
    of [d] (times the weight): the two pieces of the gradient meet at
    the threshold.  When nothing is rounded, the
    gradient without weights moves by no more than the residual does,
    and the gradient with a weight is that gradient times the weight:
    as a function of the residual it is continuous, at the threshold as
    everywhere. *)
Theorem Huber_boundary_inclusive :
  (forall (K : SmoothingUtility (H := IEEE.arith)) (self : RegressionHuberLoss.t)
         (score : list spec_float) (out : Out (H := IEEE.arith)),
    well_sized (H := IEEE.arith) (Z.to_nat (RegressionHuberLoss.num_data_ self)) score
      (RegressionHuberLoss.label_ self) (RegressionHuberLoss.weights_ self) out ->
    IEEE.is_pos (RegressionHuberLoss.delta_ self) = true ->
    exists out',
      RegressionHuberLoss.GetGradients K self score out = Some out' /\
      forall (i : nat) (s l : spec_float) (w : option spec_float),
        (i < Z.to_nat (RegressionHuberLoss.num_data_ self))%nat ->
        inputs_at (H := IEEE.arith) score (RegressionHuberLoss.label_ self)
          (RegressionHuberLoss.weights_ self) i = Some (s, l, w) ->
        let delta := RegressionHuberLoss.delta_ self in
        let d := SFsub IEEE.prec64 IEEE.emax64 s (IEEE.to_double l) in
        let quadratic :=
          match w with
          | None => IEEE.to_float d
          | Some w => IEEE.to_float (SFmul IEEE.prec64 IEEE.emax64 d (IEEE.to_double w))
          end in
        let linear :=
          match w with
          | None =>
              if SFleb IEEE.zero d then IEEE.to_float delta else IEEE.to_float (SFopp delta)
          | Some w =>
              if SFleb IEEE.zero d
              then IEEE.to_float (SFmul IEEE.prec64 IEEE.emax64 delta (IEEE.to_double w))
              else IEEE.to_float (SFmul IEEE.prec64 IEEE.emax64 (SFopp delta) (IEEE.to_double w))
          end in
        SFeqb (SFabs d) delta = true ->
        SFleb (SFabs d) delta = true /\
        gradients out' !! i = Some quadratic /\
        hessians out' !! i = Some (default IEEE.one32 w) /\
        quadratic = linear) /\
  (forall (K : SmoothingUtility (H := Exact.arith)) (delta eta : Q),
     (0 < delta)%Q ->
     (forall s l s' l' : Q,
        (Qabs ((Huber_cell (H := Exact.arith) K delta eta s l None).1 -
               (Huber_cell (H := Exact.arith) K delta eta s' l' None).1)
         <= Qabs ((s - l) - (s' - l')))%Q) /\
     (forall s l w : Q,
        ((Huber_cell (H := Exact.arith) K delta eta s l (Some w)).1 ==
         (Huber_cell (H := Exact.arith) K delta eta s l None).1 * w)%Q)).
Proof.
  split.
  { intros K self score out Hws Hpos.
    destruct (GetGradients_cells K (HuberLoss self) score out Hws)
      as (out' & Erun & _ & _ & Hin & _).
    exists out'. split; [exact Erun|].
    intros i s l w Hi Ein delta d quadratic linear Heq.
    pose proof (SFeqb_SFleb _ _ Heq) as Hle.
    split; [exact Hle|].
    destruct (Hin i s l w Hi Ein) as [Eg Eh].
    simpl in Eg, Eh. unfold Huber_cell in Eg, Eh. simpl in Eg, Eh.
    fold delta in Eg, Eh. fold d in Eg, Eh. rewrite Hle in Eg, Eh.
    split; [|split].
    - destruct w; exact Eg.
    - destruct w; exact Eh.
    - unfold quadratic, linear.
      destruct (abs_eq_cases d delta Hpos Heq) as [[Ed Ez]|[Ed Ez]];
        rewrite Ez, Ed; reflexivity. }
  intros K delta eta Hd. split.
  - intros s l s' l'. apply Huber_exact_lipschitz, Hd.
  - intros s l w. apply Huber_exact_weighted.
Qed.

Lemma Huber_boundary_inclusive_witness :
  exists out',
    RegressionHuberLoss.GetGradients small_utility scenario_Huber scenario_score zeros3
      = Some out' /\
    gradients out' !! 1%nat = Some (IEEE.to_float (SFopp IEEE.one64)) /\
    hessians out' !! 1%nat = Some IEEE.one32.
Proof.
  destruct (proj1 Huber_boundary_inclusive small_utility scenario_Huber scenario_score zeros3)
    as (out' & Erun & Hcells).
  { unfold well_sized; simpl. repeat split; try lia. intros ws E; discriminate E. }
  { reflexivity. }
  exists out'. split; [exact Erun|].
  destruct (Hcells 1%nat (IEEE.f64_of_Z 1) (IEEE.f32_of_Z 2) None) as (_ & Eg & Eh & Eql);
    [simpl; lia|reflexivity|reflexivity|].
  rewrite Eql in Eg. split; [exact Eg|exact Eh].
Defined.

(** * Further properties of the code *)

(** ** The call as a whole *)

Section WholeCall.
Context `{Arith}.
Variable K : SmoothingUtility.

Lemma all_cells_lookup self score i :
  all_cells K self score !! i =
  x ← inputs_at score (bound_label self) (bound_weights self) i;
  Some (cell K self x.1.1 x.1.2 x.2).
Proof.
  unfold all_cells, inputs_at, load.
  destruct (bound_weights self) as [ws|].
  - rewrite lookup_zip_with.
    rewrite (lookup_zip_with pair score (bound_label self) i).
    destruct (score !! i); simpl; [|reflexivity].
    destruct (bound_label self !! i); simpl; [|reflexivity].
    destruct (ws !! i); reflexivity.
  - rewrite lookup_zip_with.
    destruct (score !! i); simpl; [|reflexivity].
    destruct (bound_label self !! i); reflexivity.
Qed.

Lemma all_cells_length self score n out :
  well_sized n score (bound_label self) (bound_weights self) out ->
  (n <= length (all_cells K self score))%nat.
Proof.
  intros (Hs & Hl & Hw & _). unfold all_cells.
  destruct (bound_weights self) as [ws|].
  - specialize (Hw ws eq_refl).
    rewrite length_zip_with, (length_zip_with pair score (bound_label self)). lia.
  - rewrite length_zip_with. lia.
Qed.

Lemma Out_eq (a b : Out) :
  gradients a = gradients b -> hessians a = hessians b -> a = b.
Proof. destruct a, b. simpl. intros -> ->. reflexivity. Qed.

Lemma GetGradients_closed_form_aux self score out :
  well_sized (Z.to_nat (num_data self)) score (bound_label self) (bound_weights self) out ->
  GetGradients K self score out =
  Some (mkOut _
    ((take (Z.to_nat (num_data self)) (all_cells K self score)).*1
       ++ drop (Z.to_nat (num_data self)) (gradients out))
    ((take (Z.to_nat (num_data self)) (all_cells K self score)).*2
       ++ drop (Z.to_nat (num_data self)) (hessians out))).
Proof.
  intros Hws. set (n := Z.to_nat (num_data self)) in *.
  destruct (GetGradients_cells K self score out Hws)
    as (out' & Erun & Lg & Lh & Hin & Hout).
  fold n in Hin, Hout.
  rewrite Erun. f_equal.
  pose proof (all_cells_length self score n out Hws) as Hlen.
  assert (Ltake1 : length (take n (all_cells K self score)).*1 = n)
    by (rewrite length_fmap, length_take; lia).
  assert (Ltake2 : length (take n (all_cells K self score)).*2 = n)
    by (rewrite length_fmap, length_take; lia).
  apply Out_eq; simpl; apply list_eq; intros j;
    destruct (decide (j < n)%nat) as [Hj|Hj].
  - rewrite lookup_app_l by lia.
    rewrite list_lookup_fmap, lookup_take_lt by lia.
    rewrite all_cells_lookup.
    destruct (inputs_at_Some _ _ _ j _ _ Hws Hj) as (s & l & w & Ein & _).
    rewrite Ein. simpl. apply (Hin j s l w Hj Ein).
  - rewrite lookup_app_r by lia. rewrite Ltake1, lookup_drop.
    replace (n + (j - n))%nat with j by lia. apply Hout. lia.
  - rewrite lookup_app_l by lia.
    rewrite list_lookup_fmap, lookup_take_lt by lia.
    rewrite all_cells_lookup.
    destruct (inputs_at_Some _ _ _ j _ _ Hws Hj) as (s & l & w & Ein & _).
    rewrite Ein. simpl. apply (Hin j s l w Hj Ein).
  - rewrite lookup_app_r by lia. rewrite Ltake2, lookup_drop.
    replace (n + (j - n))%nat with j by lia. apply Hout. lia.
Qed.

End WholeCall.

(** X1.  The whole effect of a call, for every class: on buffers that
    hold at least [num_data_] cells, [GetGradients] returns the two
    buffers whose first [num_data_] cells are the gradients and the
    hessians of the examples, computed as a map over the score, label
    and weight vectors, and whose cells from [num_data_] on are the ones
    the buffers held: a call never writes at or beyond [num_data_]. *)
Theorem GetGradients_closed_form :
  forall (A : Arith) (K : SmoothingUtility) (self : ObjectiveFunction)
         (score : list double) (out : Out),
    well_sized (Z.to_nat (num_data self)) score (bound_label self) (bound_weights self) out ->
    GetGradients K self score out =
    Some (mkOut _
      ((take (Z.to_nat (num_data self)) (all_cells K self score)).*1
         ++ drop (Z.to_nat (num_data self)) (gradients out))
      ((take (Z.to_nat (num_data self)) (all_cells K self score)).*2
         ++ drop (Z.to_nat (num_data self)) (hessians out))).
Proof. intros A K self score out. apply GetGradients_closed_form_aux. Qed.

Lemma GetGradients_closed_form_witness :
  GetGradients small_utility (L2loss scenario_L2) scenario_score
    (mkOut IEEE.arith [IEEE.zero; IEEE.zero; IEEE.zero; IEEE.one32]
                      [IEEE.zero; IEEE.zero; IEEE.zero; IEEE.one32]) =
  Some (mkOut IEEE.arith (map IEEE.f32_of_Z [0; -1; -2; 1]) (map IEEE.f32_of_Z [1; 1; 1; 1])).
Proof.
  rewrite (GetGradients_closed_form IEEE.arith small_utility (L2loss scenario_L2)
             scenario_score
             (mkOut IEEE.arith [IEEE.zero; IEEE.zero; IEEE.zero; IEEE.one32]
                               [IEEE.zero; IEEE.zero; IEEE.zero; IEEE.one32])).
  - reflexivity.
  - unfold well_sized; simpl. repeat split; try lia. intros ws E; discriminate E.
Defined.

(** X2.  Bounds, for every class: a call of [GetGradients] stays within
    its five buffers exactly when the score vector, the bound label
    vector, the bound weight vector (if any) and both output buffers
    hold at least [num_data_] cells; with a shorter buffer some
    iteration reads or writes out of bounds. *)
Theorem GetGradients_in_bounds_iff :
  forall (A : Arith) (K : SmoothingUtility) (self : ObjectiveFunction)
         (score : list double) (out : Out),
    is_Some (GetGradients K self score out) <->
    well_sized (Z.to_nat (num_data self)) score (bound_label self) (bound_weights self) out.
Proof.
  intros A K self score out. split.
  - intros [out' Erun]. exact (GetGradients_Some_well_sized K _ _ _ _ Erun).
  - intros Hws. destruct (GetGradients_cells K self score out Hws) as (out' & Erun & _).
    exists out'. exact Erun.
Qed.

Lemma GetGradients_in_bounds_iff_witness :
  GetGradients small_utility (FairLoss scenario_Fair) scenario_score
    (mkOut IEEE.arith [IEEE.zero; IEEE.zero] [IEEE.zero; IEEE.zero; IEEE.zero]) = None.
Proof.
  destruct (GetGradients small_utility (FairLoss scenario_Fair) scenario_score
              (mkOut IEEE.arith [IEEE.zero; IEEE.zero] [IEEE.zero; IEEE.zero; IEEE.zero]))
    as [out'|] eqn:E; [|reflexivity].
  destruct (proj1 (GetGradients_in_bounds_iff IEEE.arith small_utility
                     (FairLoss scenario_Fair) scenario_score
                     (mkOut IEEE.arith [IEEE.zero; IEEE.zero]
                                       [IEEE.zero; IEEE.zero; IEEE.zero])))
    as (_ & _ & _ & Hg & _).
  - rewrite E. exists out'. reflexivity.
  - simpl in Hg. lia.
Defined.

(** X3.  The schedule does not matter, for every class: the iterations
    of the loop of [GetGradients], taken one after the other in any
    arrangement of the indices [0 .. num_data_ - 1], leave the buffers
    that the loop in increasing order leaves. *)
Theorem GetGradients_any_schedule :
  forall (A : Arith) (K : SmoothingUtility) (self : ObjectiveFunction)
         (score : list double) (out : Out) (order : list nat),
    well_sized (Z.to_nat (num_data self)) score (bound_label self) (bound_weights self) out ->
    order ≡ₚ seq 0 (Z.to_nat (num_data self)) ->
    GetGradients_scheduled K self score order out = GetGradients K self score out.
Proof.
  intros A K self score out order Hws Hperm.
  unfold GetGradients_scheduled. rewrite GetGradients_loop.
  apply parallel_for_any_order; assumption.
Qed.

Lemma GetGradients_any_schedule_witness :
  GetGradients_scheduled small_utility (HuberLoss scenario_Huber) scenario_score
    [2; 0; 1]%nat zeros3 =
  GetGradients small_utility (HuberLoss scenario_Huber) scenario_score zeros3.
Proof.
  apply (GetGradients_any_schedule IEEE.arith small_utility (HuberLoss scenario_Huber)
           scenario_score zeros3 [2; 0; 1]%nat).
  - unfold well_sized; simpl. repeat split; try lia. intros ws E; discriminate E.
  - simpl. change [2; 0; 1]%nat with ([2]%nat ++ [0; 1]%nat).
    change [0; 1; 2]%nat with ([0; 1]%nat ++ [2]%nat).
    apply Permutation_app_comm.
Defined.

(** X4.  Calls compose by overwriting, for every class: a call made on
    the buffers that an earlier call of the same objective filled, with
    any other score vector of sufficient size, returns what it returns
    on the buffers as they were before the earlier call; nothing of the
    earlier scores is left. *)
Theorem GetGradients_last_call_wins :
  forall (A : Arith) (K : SmoothingUtility) (self : ObjectiveFunction)
         (score1 score2 : list double) (out out1 : Out),
    GetGradients K self score1 out = Some out1 ->
    (Z.to_nat (num_data self) <= length score2)%nat ->
    GetGradients K self score2 out1 = GetGradients K self score2 out /\
    is_Some (GetGradients K self score2 out).
Proof.
  intros A K self score1 score2 out out1 Erun Hlen.
  pose proof (GetGradients_Some_well_sized K _ _ _ _ Erun) as Hws1.
  pose proof Hws1 as (_ & Hl & Hw & Hg & Hh).
  assert (Hws2 : well_sized (Z.to_nat (num_data self)) score2 (bound_label self)
                   (bound_weights self) out) by (unfold well_sized; auto).
  rewrite (GetGradients_closed_form_aux K self score1 out Hws1) in Erun.
  injection Erun as <-.
  set (n := Z.to_nat (num_data self)) in *.
  pose proof (all_cells_length K self score1 n out Hws1) as Hc.
  assert (L1 : length (take n (all_cells K self score1)).*1 = n)
    by (rewrite length_fmap, length_take; lia).
  assert (L2 : length (take n (all_cells K self score1)).*2 = n)
    by (rewrite length_fmap, length_take; lia).
  split.
  - rewrite (GetGradients_closed_form_aux K self score2 out Hws2).
    rewrite GetGradients_closed_form_aux.
    + fold n. simpl.
      rewrite !drop_app_length' by (symmetry; assumption). reflexivity.
    + fold n. unfold well_sized. simpl. rewrite !length_app, L1, L2.
      repeat split; auto; lia.
  - rewrite (GetGradients_closed_form_aux K self score2 out Hws2). eexists. reflexivity.
Qed.

Lemma GetGradients_last_call_wins_witness :
  GetGradients small_utility (L1loss scenario_L1) (map IEEE.f64_of_Z [5; 0; 3])
    (mkOut IEEE.arith (map IEEE.f32_of_Z [1; -1; -1]) [IEEE.zero; IEEE.zero; IEEE.zero]) =
  GetGradients small_utility (L1loss scenario_L1) (map IEEE.f64_of_Z [5; 0; 3]) zeros3.
Proof.
  apply (GetGradients_last_call_wins IEEE.arith small_utility (L1loss scenario_L1)
           scenario_score (map IEEE.f64_of_Z [5; 0; 3]) zeros3).
  - reflexivity.
  - simpl. lia.
Defined.

(** ** Rounding is symmetric in the sign *)

Lemma binary_round_aux_opp prec emax s m e l :
  binary_round_aux prec emax (negb s) m e l = SFopp (binary_round_aux prec emax s m e l).
Proof.
  unfold binary_round_aux.
  destruct (shr_fexp prec emax m e l) as [mrs' e'].
  destruct (shr_fexp prec emax (round_nearest_even (shr_m mrs') (loc_of_shr_record mrs'))
              e' loc_Exact) as [mrs'' e''].
  destruct (shr_m mrs''); try reflexivity.
  destruct (e'' <=? emax - prec); reflexivity.
Qed.

Lemma binary_round_opp prec emax s m e :
  binary_round prec emax (negb s) m e = SFopp (binary_round prec emax s m e).
Proof.
  unfold binary_round.
  destruct (shl_align m e (fexp prec emax (Z.pos (digits2_pos m) + e))) as [mz ez].
  apply binary_round_aux_opp.
Qed.

Lemma convert_opp prec emax x :
  IEEE.convert prec emax (SFopp x) = SFopp (IEEE.convert prec emax x).
Proof. destruct x; try reflexivity. apply binary_round_opp. Qed.

Lemma SFopp_involutive x : SFopp (SFopp x) = x.
Proof. destruct x; simpl; rewrite ?Bool.negb_involutive; reflexivity. Qed.

Lemma SFmul_opp_l prec emax x y :
  SFmul prec emax (SFopp x) y = SFopp (SFmul prec emax x y).
Proof.
  destruct x as [sx|sx| |sx mx ex], y as [sy|sy| |sy my ey]; simpl;
    rewrite <- ?Bool.negb_xorb_l; try reflexivity.
  apply binary_round_aux_opp.
Qed.

Lemma SFmul_opp_r prec emax x y :
  SFmul prec emax x (SFopp y) = SFopp (SFmul prec emax x y).
Proof.
  destruct x as [sx|sx| |sx mx ex], y as [sy|sy| |sy my ey]; simpl;
    rewrite <- ?Bool.negb_xorb_r; try reflexivity.
  apply binary_round_aux_opp.
Qed.

Lemma SFdiv_opp_l prec emax x y :
  SFdiv prec emax (SFopp x) y = SFopp (SFdiv prec emax x y).
Proof.
  destruct x as [sx|sx| |sx mx ex], y as [sy|sy| |sy my ey]; simpl;
    rewrite <- ?Bool.negb_xorb_l; try reflexivity.
  destruct (SFdiv_core_binary prec emax (Z.pos mx) ex (Z.pos my) ey) as [[mz ez] lz].
  apply binary_round_aux_opp.
Qed.

(** For a number that is not a zero, [0 <= -d] is the negation of
    [0 <= d]. *)
Lemma zero_le_opp d :
  nonzero_number d = true -> SFleb IEEE.zero (SFopp d) = negb (SFleb IEEE.zero d).
Proof. destruct d as [s|s| |s m e]; try discriminate; destruct s; reflexivity. Qed.

(** ** The losses are symmetric *)

Section Symmetry.
Variable K : SmoothingUtility (H := IEEE.arith).

Lemma L2_cell_opp s l s' l' w :
  SFsub IEEE.prec64 IEEE.emax64 s' (IEEE.to_double l') =
    SFopp (SFsub IEEE.prec64 IEEE.emax64 s (IEEE.to_double l)) ->
  (L2_cell (H := IEEE.arith) s' l' w).1 = SFopp (L2_cell (H := IEEE.arith) s l w).1 /\
  (L2_cell (H := IEEE.arith) s' l' w).2 = (L2_cell (H := IEEE.arith) s l w).2.
Proof.
  intros Hopp. cbv [L2_cell dsub d_of_f f_of_d fmul f1 IEEE.arith].
  rewrite Hopp. unfold IEEE.to_float. rewrite convert_opp.
  destruct w as [w|]; simpl; split; try reflexivity.
  apply SFmul_opp_l.
Qed.

Lemma Fair_cell_opp c s l s' l' w :
  SFsub IEEE.prec64 IEEE.emax64 s' (IEEE.to_double l') =
    SFopp (SFsub IEEE.prec64 IEEE.emax64 s (IEEE.to_double l)) ->
  (Fair_cell (H := IEEE.arith) c s' l' w).1 = SFopp (Fair_cell (H := IEEE.arith) c s l w).1 /\
  (Fair_cell (H := IEEE.arith) c s' l' w).2 = (Fair_cell (H := IEEE.arith) c s l w).2.
Proof.
  intros Hopp. cbv [Fair_cell dsub dadd dmul ddiv dabs d_of_f f_of_d IEEE.arith].
  rewrite Hopp, SFabs_SFopp, SFmul_opp_r, SFdiv_opp_l. unfold IEEE.to_float.
  destruct w as [w|]; simpl; split; try reflexivity.
  - rewrite SFmul_opp_l. apply convert_opp.
  - apply convert_opp.
Qed.

Lemma L1_cell_opp eta s l s' l' w :
  SFsub IEEE.prec64 IEEE.emax64 s' (IEEE.to_double l') =
    SFopp (SFsub IEEE.prec64 IEEE.emax64 s (IEEE.to_double l)) ->
  nonzero_number (SFsub IEEE.prec64 IEEE.emax64 s (IEEE.to_double l)) = true ->
  (L1_cell (H := IEEE.arith) K eta s' l' w).1 = SFopp (L1_cell (H := IEEE.arith) K eta s l w).1.
Proof.
  intros Hopp Hnz. cbv [L1_cell dsub dge dle fneg d_of_f f0 f1 IEEE.arith fst].
  change (IEEE.to_double IEEE.zero) with IEEE.zero.
  rewrite Hopp, (zero_le_opp _ Hnz).
  destruct (SFleb IEEE.zero (SFsub IEEE.prec64 IEEE.emax64 s (IEEE.to_double l)));
    destruct w as [w|]; simpl; rewrite ?SFopp_involutive; reflexivity.
Qed.

Lemma Huber_cell_opp delta eta s l s' l' w :
  SFsub IEEE.prec64 IEEE.emax64 s' (IEEE.to_double l') =
    SFopp (SFsub IEEE.prec64 IEEE.emax64 s (IEEE.to_double l)) ->
  nonzero_number (SFsub IEEE.prec64 IEEE.emax64 s (IEEE.to_double l)) = true \/
  SFleb (SFabs (SFsub IEEE.prec64 IEEE.emax64 s (IEEE.to_double l))) delta = true ->
  (Huber_cell (H := IEEE.arith) K delta eta s' l' w).1 =
  SFopp (Huber_cell (H := IEEE.arith) K delta eta s l w).1.
Proof.
  intros Hopp Hside.
  cbv [Huber_cell dsub dmul dabs dneg dge dle d_of_f f_of_d f0 f1 IEEE.arith].
  change (IEEE.to_double IEEE.zero) with IEEE.zero.
  rewrite Hopp, SFabs_SFopp.
  set (d := SFsub IEEE.prec64 IEEE.emax64 s (IEEE.to_double l)) in *.
  unfold IEEE.to_float.
  destruct (SFleb (SFabs d) delta) eqn:Hq.
  - destruct w as [w|]; simpl; rewrite ?SFmul_opp_l; apply convert_opp.
  - destruct Hside as [Hnz|Hq']; [|discriminate].
    rewrite (zero_le_opp _ Hnz).
    destruct (SFleb IEEE.zero d); destruct w as [w|]; simpl;
      rewrite ?SFmul_opp_l, ?convert_opp, ?SFopp_involutive; reflexivity.
Qed.

End Symmetry.

(** X5.  The four losses are symmetric, bit for bit.  In the arithmetic
    of the compiled code, at two indices of a call that have the same
    weight and opposite residuals [d] and [-d], the gradients written
    are opposite; squared error and Fair also write equal hessians.
    For absolute error [d] must be a number other than zero (zero of
    either sign and NaN take the branch [d >= 0] resp. its else branch
    on both sides); for Huber the same, unless [|d| <= delta]. *)
Theorem gradients_odd_in_residual :
  forall (K : SmoothingUtility (H := IEEE.arith)) (self : ObjectiveFunction)
         (score : list spec_float) (out : Out (H := IEEE.arith)),
    well_sized (H := IEEE.arith) (Z.to_nat (num_data self)) score (bound_label self)
      (bound_weights self) out ->
    exists out',
      GetGradients K self score out = Some out' /\
      forall (i j : nat) (s l s' l' : spec_float) (w : option spec_float),
        (i < Z.to_nat (num_data self))%nat -> (j < Z.to_nat (num_data self))%nat ->
        inputs_at (H := IEEE.arith) score (bound_label self) (bound_weights self) i
          = Some (s, l, w) ->
        inputs_at (H := IEEE.arith) score (bound_label self) (bound_weights self) j
          = Some (s', l', w) ->
        let d := SFsub IEEE.prec64 IEEE.emax64 s (IEEE.to_double l) in
        SFsub IEEE.prec64 IEEE.emax64 s' (IEEE.to_double l') = SFopp d ->
        match self with
        | L2loss _ | FairLoss _ => True
        | L1loss _ => nonzero_number d = true
        | HuberLoss o =>
            nonzero_number d = true \/
            SFleb (SFabs d) (RegressionHuberLoss.delta_ o) = true
        end ->
        exists g,
          gradients out' !! i = Some g /\
          gradients out' !! j = Some (SFopp g) /\
          match self with
          | L2loss _ | FairLoss _ => hessians out' !! j = hessians out' !! i
          | _ => True
          end.
Proof.
  intros K self score out Hws.
  destruct (GetGradients_cells K self score out Hws) as (out' & Erun & _ & _ & Hin & _).
  exists out'. split; [exact Erun|].
  intros i j s l s' l' w Hi Hj Ei Ej d Hopp Hside.
  destruct (Hin i s l w Hi Ei) as [Egi Ehi].
  destruct (Hin j s' l' w Hj Ej) as [Egj Ehj].
  eexists. split; [exact Egi|].
  destruct self as [o|o|o|o]; cbn [cell] in *.
  - destruct (L2_cell_opp s l s' l' w Hopp) as [E1 E2].
    rewrite E1 in Egj. rewrite E2 in Ehj. split; [exact Egj|].
    exact (eq_trans Ehj (eq_sym Ehi)).
  - rewrite (L1_cell_opp K _ s l s' l' w Hopp Hside) in Egj. split; [exact Egj|exact I].
  - rewrite (Huber_cell_opp K _ _ s l s' l' w Hopp Hside) in Egj.
    split; [exact Egj|exact I].
  - destruct (Fair_cell_opp (RegressionFairLoss.c_ o) s l s' l' w Hopp) as [E1 E2].
    rewrite E1 in Egj. rewrite E2 in Ehj. split; [exact Egj|].
    exact (eq_trans Ehj (eq_sym Ehi)).
Qed.

Lemma gradients_odd_in_residual_witness :
  exists out' g,
    GetGradients small_utility (FairLoss scenario_Fair) (map IEEE.f64_of_Z [3; 2; 1]) zeros3
      = Some out' /\
    gradients out' !! 0%nat = Some g /\
    gradients out' !! 2%nat = Some (SFopp g) /\
    hessians out' !! 2%nat = hessians out' !! 0%nat.
Proof.
  destruct (gradients_odd_in_residual small_utility (FairLoss scenario_Fair)
              (map IEEE.f64_of_Z [3; 2; 1]) zeros3) as (out' & Erun & Hsym).
  { unfold well_sized; simpl. repeat split; try lia. intros ws E; discriminate E. }
  destruct (Hsym 0%nat 2%nat (IEEE.f64_of_Z 3) (IEEE.f32_of_Z 1)
              (IEEE.f64_of_Z 1) (IEEE.f32_of_Z 3) None) as (g & Eg & Eg' & Eh);
    [simpl; lia|simpl; lia|reflexivity|reflexivity|reflexivity|exact I|].
  exists out', g. split; [exact Erun|]. split; [exact Eg|]. split; [exact Eg'|exact Eh].
Defined.

(** ** Residuals that are not finite *)

Section NonFinite.
Variable K : SmoothingUtility (H := IEEE.arith).

Lemma residual_nan s l :
  is_nan s = true \/ is_nan l = true ->
  SFsub IEEE.prec64 IEEE.emax64 s (IEEE.to_double l) = S754_nan.
Proof.
  intros [Hn|Hn].
  - destruct s; try discriminate. reflexivity.
  - destruct l; try discriminate. destruct s; reflexivity.
Qed.

Lemma SFadd_nan_l prec emax y : SFadd prec emax S754_nan y = S754_nan.
Proof. reflexivity. Qed.

Lemma SFmul_nan_l prec emax y : SFmul prec emax S754_nan y = S754_nan.
Proof. reflexivity. Qed.

Lemma SFmul_nan_r prec emax x : SFmul prec emax x S754_nan = S754_nan.
Proof. destruct x; reflexivity. Qed.

Lemma SFdiv_nan_l prec emax y : SFdiv prec emax S754_nan y = S754_nan.
Proof. reflexivity. Qed.

Lemma SFdiv_nan_r prec emax x : SFdiv prec emax x S754_nan = S754_nan.
Proof. destruct x; reflexivity. Qed.

Lemma SFabs_nan : SFabs S754_nan = S754_nan.
Proof. reflexivity. Qed.

Lemma convert_nan prec emax : IEEE.convert prec emax S754_nan = S754_nan.
Proof. reflexivity. Qed.

Create Rewrite HintDb nan_rules.
#[local] Hint Rewrite SFadd_nan_l SFmul_nan_l SFmul_nan_r SFdiv_nan_l SFdiv_nan_r
  SFabs_nan convert_nan : nan_rules.

Lemma L2_cell_nan s l w :
  SFsub IEEE.prec64 IEEE.emax64 s (IEEE.to_double l) = S754_nan ->
  (L2_cell (H := IEEE.arith) s l w).1 = S754_nan.
Proof.
  intros Hd. cbv [L2_cell dsub d_of_f f_of_d fmul f1 IEEE.arith]. rewrite Hd.
  destruct w; reflexivity.
Qed.

Lemma L1_cell_nan eta s l w :
  SFsub IEEE.prec64 IEEE.emax64 s (IEEE.to_double l) = S754_nan ->
  (L1_cell (H := IEEE.arith) K eta s l w).1 = SFopp (default IEEE.one32 w).
Proof.
  intros Hd. cbv [L1_cell dsub dge dle fneg d_of_f f0 f1 IEEE.arith fst]. rewrite Hd.
  destruct w; reflexivity.
Qed.

Lemma Huber_cell_nan delta eta s l w :
  SFsub IEEE.prec64 IEEE.emax64 s (IEEE.to_double l) = S754_nan ->
  (Huber_cell (H := IEEE.arith) K delta eta s l w).1 =
  match w with
  | None => IEEE.to_float (SFopp delta)
  | Some w => IEEE.to_float (SFmul IEEE.prec64 IEEE.emax64 (SFopp delta) (IEEE.to_double w))
  end.
Proof.
  intros Hd.
  cbv [Huber_cell dsub dmul dabs dneg dge dle d_of_f f_of_d f0 f1 IEEE.arith].
  rewrite Hd. destruct w; reflexivity.
Qed.

Lemma Fair_cell_nan c s l w :
  SFsub IEEE.prec64 IEEE.emax64 s (IEEE.to_double l) = S754_nan ->
  Fair_cell (H := IEEE.arith) c s l w = (S754_nan, S754_nan).
Proof.
  intros Hd. cbv [Fair_cell dsub dadd dmul ddiv dabs d_of_f f_of_d IEEE.arith].
  rewrite Hd. unfold IEEE.to_float.
  destruct w; autorewrite with nan_rules; reflexivity.
Qed.

Lemma L2_cell_inf s l sign :
  SFsub IEEE.prec64 IEEE.emax64 s (IEEE.to_double l) = S754_infinity sign ->
  (L2_cell (H := IEEE.arith) s l None).1 = S754_infinity sign.
Proof.
  intros Hd. cbv [L2_cell dsub d_of_f f_of_d fmul f1 IEEE.arith]. rewrite Hd. reflexivity.
Qed.

Lemma L1_cell_inf eta s l w sign :
  SFsub IEEE.prec64 IEEE.emax64 s (IEEE.to_double l) = S754_infinity sign ->
  (L1_cell (H := IEEE.arith) K eta s l w).1 =
  if sign then SFopp (default IEEE.one32 w) else default IEEE.one32 w.
Proof.
  intros Hd. cbv [L1_cell dsub dge dle fneg d_of_f f0 f1 IEEE.arith fst]. rewrite Hd.
  destruct sign, w; reflexivity.
Qed.

Lemma Huber_cell_inf delta eta s l w sign :
  SFsub IEEE.prec64 IEEE.emax64 s (IEEE.to_double l) = S754_infinity sign ->
  IEEE.is_finite delta = true ->
  (Huber_cell (H := IEEE.arith) K delta eta s l w).1 =
  let signed_delta := if sign then SFopp delta else delta in
  match w with
  | None => IEEE.to_float signed_delta
  | Some w => IEEE.to_float (SFmul IEEE.prec64 IEEE.emax64 signed_delta (IEEE.to_double w))
  end.
Proof.
  intros Hd Hfin.
  cbv [Huber_cell dsub dmul dabs dneg dge dle d_of_f f_of_d f0 f1 IEEE.arith].
  rewrite Hd.
  assert (Hq : SFleb (SFabs (S754_infinity sign)) delta = false)
    by (destruct delta as [sd|sd| |sd md ed]; try discriminate; reflexivity).
  rewrite Hq. destruct sign, w; reflexivity.
Qed.

Lemma Fair_cell_inf c s l w sign :
  SFsub IEEE.prec64 IEEE.emax64 s (IEEE.to_double l) = S754_infinity sign ->
  IEEE.is_pos c = true -> IEEE.is_finite c = true ->
  (Fair_cell (H := IEEE.arith) c s l w).1 = S754_nan /\
  IEEE.is_pos (Fair_cell (H := IEEE.arith) c s l w).2 = false.
Proof.
  intros Hd Hpos Hfin.
  destruct c as [sc|sc| |sc mc ec]; try discriminate.
  destruct sc; try discriminate.
  cbv [Fair_cell dsub dadd dmul ddiv dabs d_of_f f_of_d IEEE.arith]. rewrite Hd.
  split.
  - destruct w; reflexivity.
  - assert (Hu : exists u,
        SFdiv IEEE.prec64 IEEE.emax64
          (SFmul IEEE.prec64 IEEE.emax64 (S754_finite false mc ec) (S754_finite false mc ec))
          (SFmul IEEE.prec64 IEEE.emax64
             (SFadd IEEE.prec64 IEEE.emax64 (SFabs (S754_infinity sign))
                (S754_finite false mc ec))
             (SFadd IEEE.prec64 IEEE.emax64 (SFabs (S754_infinity sign))
                (S754_finite false mc ec))) = u /\
        (u = S754_zero false \/ u = S754_nan)).
    { eexists. split; [reflexivity|].
      change (SFmul IEEE.prec64 IEEE.emax64 (S754_finite false mc ec) (S754_finite false mc ec))
        with (binary_round_aux IEEE.prec64 IEEE.emax64 false (Z.pos (mc * mc)) (ec + ec)
                loc_Exact).
      destruct (binary_round_aux_signed IEEE.prec64 IEEE.emax64 false
                  (Z.pos (mc * mc)) (ec + ec) loc_Exact) as [->|[(m' & e' & ->)| ->]];
        [lia|left|left|right]; reflexivity. }
    destruct Hu as (u & -> & [-> | ->]).
    + destruct w as [w|]; [|reflexivity]. cbn [snd].
      destruct w as [sw|sw| |sw mw ew]; try reflexivity.
      unfold IEEE.to_double, IEEE.convert.
      destruct (binary_round_signed IEEE.prec64 IEEE.emax64 sw mw ew)
        as [->|[(m' & e' & ->)| ->]]; destruct sw; reflexivity.
    + destruct w as [w|]; reflexivity.
Qed.

End NonFinite.

(** X6.  A residual that is NaN, in the arithmetic of the compiled code.
    The residual [score[i] - label_[i]] is NaN as soon as the score or
    the label is.  At such an index squared error writes the gradient
    NaN and Fair writes NaN as gradient and as hessian, but absolute
    error and Huber do not propagate it: every comparison with NaN is
    false, so absolute error writes the gradient [-1.0f] (or
    [-weights_[i]]) and Huber takes the linear branch and writes
    [-delta] (times the weight), cast to [score_t]. *)
Theorem GetGradients_nan_residual :
  (forall s l : spec_float,
     is_nan s = true \/ is_nan l = true ->
     is_nan (SFsub IEEE.prec64 IEEE.emax64 s (IEEE.to_double l)) = true) /\
  forall (K : SmoothingUtility (H := IEEE.arith)) (self : ObjectiveFunction)
         (score : list spec_float) (out : Out (H := IEEE.arith)),
    well_sized (H := IEEE.arith) (Z.to_nat (num_data self)) score (bound_label self)
      (bound_weights self) out ->
    exists out',
      GetGradients K self score out = Some out' /\
      forall (i : nat) (s l : spec_float) (w : option spec_float),
        (i < Z.to_nat (num_data self))%nat ->
        inputs_at (H := IEEE.arith) score (bound_label self) (bound_weights self) i
          = Some (s, l, w) ->
        is_nan (SFsub IEEE.prec64 IEEE.emax64 s (IEEE.to_double l)) = true ->
        match self with
        | L2loss _ => gradients out' !! i = Some S754_nan
        | L1loss _ => gradients out' !! i = Some (SFopp (default IEEE.one32 w))
        | HuberLoss o =>
            gradients out' !! i =
            Some match w with
                 | None => IEEE.to_float (SFopp (RegressionHuberLoss.delta_ o))
                 | Some w =>
                     IEEE.to_float
                       (SFmul IEEE.prec64 IEEE.emax64 (SFopp (RegressionHuberLoss.delta_ o))
                          (IEEE.to_double w))
                 end
        | FairLoss _ =>
            gradients out' !! i = Some S754_nan /\ hessians out' !! i = Some S754_nan
        end.
Proof.
  split.
  - intros s l Hn. rewrite (residual_nan s l Hn). reflexivity.
  - intros K self score out Hws.
    destruct (GetGradients_cells K self score out Hws) as (out' & Erun & _ & _ & Hin & _).
    exists out'. split; [exact Erun|].
    intros i s l w Hi Ein Hn.
    assert (Hd : SFsub IEEE.prec64 IEEE.emax64 s (IEEE.to_double l) = S754_nan)
      by (destruct (SFsub IEEE.prec64 IEEE.emax64 s (IEEE.to_double l));
          try discriminate; reflexivity).
    destruct (Hin i s l w Hi Ein) as [Eg Eh].
    destruct self as [o|o|o|o]; cbn [cell] in Eg, Eh.
    + rewrite (L2_cell_nan s l w Hd) in Eg. exact Eg.
    + rewrite (L1_cell_nan K _ s l w Hd) in Eg. exact Eg.
    + rewrite (Huber_cell_nan K _ _ s l w Hd) in Eg. exact Eg.
    + rewrite (Fair_cell_nan _ s l w Hd) in Eg, Eh. split; [exact Eg|exact Eh].
Qed.

Lemma GetGradients_nan_residual_witness :
  exists out',
    GetGradients small_utility (L1loss scenario_L1) [S754_nan; IEEE.zero; IEEE.zero] zeros3
      = Some out' /\
    gradients out' !! 0%nat = Some (SFopp IEEE.one32).
Proof.
  destruct (proj2 GetGradients_nan_residual small_utility (L1loss scenario_L1)
              [S754_nan; IEEE.zero; IEEE.zero] zeros3) as (out' & Erun & Hnan).
  { unfold well_sized; simpl. repeat split; try lia. intros ws E; discriminate E. }
  exists out'. split; [exact Erun|].
  apply (Hnan 0%nat S754_nan (IEEE.f32_of_Z 1) None); [simpl; lia|reflexivity|reflexivity].
Defined.

(** X7.  An infinite residual, in the arithmetic of the compiled code.
    At an index whose residual is an infinity: squared error without
    weights writes that infinity as gradient; absolute error writes
    [1.0f] or [-1.0f] (the weight or its opposite) by the sign; Huber
    with a finite [delta] takes the linear branch and writes [delta] or
    [-delta] (times the weight); Fair with a finite positive [c] does
    not saturate at [c]: [c * x / (|x| + c)] is infinity over infinity,
    the gradient written is NaN, and the hessian written is not
    positive. *)
Theorem GetGradients_infinite_residual :
  forall (K : SmoothingUtility (H := IEEE.arith)) (self : ObjectiveFunction)
         (score : list spec_float) (out : Out (H := IEEE.arith)),
    well_sized (H := IEEE.arith) (Z.to_nat (num_data self)) score (bound_label self)
      (bound_weights self) out ->
    exists out',
      GetGradients K self score out = Some out' /\
      forall (i : nat) (s l : spec_float) (w : option spec_float) (sign : bool),
        (i < Z.to_nat (num_data self))%nat ->
        inputs_at (H := IEEE.arith) score (bound_label self) (bound_weights self) i
          = Some (s, l, w) ->
        SFsub IEEE.prec64 IEEE.emax64 s (IEEE.to_double l) = S754_infinity sign ->
        match self with
        | L2loss _ => w = None -> gradients out' !! i = Some (S754_infinity sign)
        | L1loss _ =>
            gradients out' !! i =
            Some (if sign then SFopp (default IEEE.one32 w) else default IEEE.one32 w)
        | HuberLoss o =>
            IEEE.is_finite (RegressionHuberLoss.delta_ o) = true ->
            let signed_delta :=
              if sign then SFopp (RegressionHuberLoss.delta_ o)
              else RegressionHuberLoss.delta_ o in
            gradients out' !! i =
            Some match w with
                 | None => IEEE.to_float signed_delta
                 | Some w =>
                     IEEE.to_float
                       (SFmul IEEE.prec64 IEEE.emax64 signed_delta (IEEE.to_double w))
                 end
        | FairLoss o =>
            IEEE.is_pos (RegressionFairLoss.c_ o) = true ->
            IEEE.is_finite (RegressionFairLoss.c_ o) = true ->
            gradients out' !! i = Some S754_nan /\
            exists h, hessians out' !! i = Some h /\ IEEE.is_pos h = false
        end.
Proof.
  intros K self score out Hws.
  destruct (GetGradients_cells K self score out Hws) as (out' & Erun & _ & _ & Hin & _).
  exists out'. split; [exact Erun|].
  intros i s l w sign Hi Ein Hd.
  destruct (Hin i s l w Hi Ein) as [Eg Eh].
  destruct self as [o|o|o|o]; cbn [cell] in Eg, Eh.
  - intros ->. exact (eq_trans Eg (f_equal Some (L2_cell_inf s l sign Hd))).
  - rewrite (L1_cell_inf K _ s l w sign Hd) in Eg. exact Eg.
  - intros Hfin signed_delta.
    rewrite (Huber_cell_inf K _ _ s l w sign Hd Hfin) in Eg. exact Eg.
  - intros Hpos Hfin.
    destruct (Fair_cell_inf (RegressionFairLoss.c_ o) s l w sign Hd Hpos Hfin) as [E1 E2].
    rewrite E1 in Eg. split; [exact Eg|]. eexists. split; [exact Eh|exact E2].
Qed.

Lemma GetGradients_infinite_residual_witness :
  exists out',
    GetGradients small_utility (FairLoss scenario_Fair)
      [S754_infinity false; IEEE.zero; IEEE.zero] zeros3 = Some out' /\
    gradients out' !! 0%nat = Some S754_nan.
Proof.
  destruct (GetGradients_infinite_residual small_utility (FairLoss scenario_Fair)
              [S754_infinity false; IEEE.zero; IEEE.zero] zeros3) as (out' & Erun & Hinf).
  { unfold well_sized; simpl. repeat split; try lia. intros ws E; discriminate E. }
  exists out'. split; [exact Erun|].
  apply (Hinf 0%nat (S754_infinity false) (IEEE.f32_of_Z 1) None false);
    [simpl; lia|reflexivity|reflexivity|reflexivity|reflexivity].
Defined.

(** ** Convexity: gradients grow with the residual *)

Section Monotone.
Local Open Scope Q_scope.
Variable K : SmoothingUtility (H := Exact.arith).

Lemma Huber_exact_cases_nonneg (delta eta s l : Q) :
  0 <= delta ->
  let d := s - l in
  let g := (Huber_cell (H := Exact.arith) K delta eta s l None).1 in
  (- delta <= d /\ d <= delta /\ g = d) \/
  (delta < d /\ g = delta) \/
  (d < - delta /\ g = - delta).
Proof.
  intros Hd d g. unfold g.
  cbv [Huber_cell dle dabs dsub d_of_f dge f_of_d dneg f0 Exact.arith].
  fold d. destruct (Qabs_bounds d) as (Ha & Hl & Hu).
  destruct (Qle_bool (Qabs d) delta) eqn:E1.
  - apply Qle_bool_iff in E1. left. repeat split; lra.
  - apply Qle_bool_false in E1. right.
    destruct (Qle_bool 0 d) eqn:E2.
    + apply Qle_bool_iff in E2. left. split; [|reflexivity].
      rewrite Qabs_pos in E1; assumption.
    + apply Qle_bool_false in E2. right. split; [|reflexivity].
      rewrite Qabs_neg in E1; lra.
Qed.

Lemma L2_exact_gradient (s l : Q) (w : option Q) :
  (L2_cell (H := Exact.arith) s l w).1 == (s - l) * default 1 w.
Proof.
  destruct w as [w|]; cbv [L2_cell dsub d_of_f f_of_d fmul f1 Exact.arith fst];
    simpl default; [reflexivity|ring].
Qed.

Lemma L1_exact_gradient (eta s l : Q) (w : option Q) :
  (L1_cell (H := Exact.arith) K eta s l w).1 =
  if Qle_bool 0 (s - l) then default 1 w else - default 1 w.
Proof. destruct w; reflexivity. Qed.

Lemma Huber_exact_gradient (delta eta s l : Q) (w : option Q) :
  (Huber_cell (H := Exact.arith) K delta eta s l w).1 ==
  (Huber_cell (H := Exact.arith) K delta eta s l None).1 * default 1 w.
Proof.
  destruct w as [w|]; [apply Huber_exact_weighted|]. simpl default.
  symmetry. apply Qmult_1_r.
Qed.

Lemma fair_ratio_monotone (c x y : Q) :
  0 < c -> x <= y -> c * x / (Qabs x + c) <= c * y / (Qabs y + c).
Proof.
  intros Hc Hxy.
  destruct (Qabs_bounds x) as (Hax & _ & _). destruct (Qabs_bounds y) as (Hay & _ & _).
  apply Qle_shift_div_r; [lra|].
  apply (Qmult_lt_0_le_reg_r _ _ (Qabs y + c)); [lra|].
  assert (E : c * y / (Qabs y + c) * (Qabs y + c) == c * y) by (field; lra).
  assert (Hcross : x * Qabs y <= y * Qabs x).
  { destruct (Qlt_le_dec x 0) as [Hx|Hx]; destruct (Qlt_le_dec y 0) as [Hy|Hy].
    - rewrite (Qabs_neg x), (Qabs_neg y) by lra. nra.
    - rewrite (Qabs_neg x), (Qabs_pos y) by lra. nra.
    - lra.
    - rewrite (Qabs_pos x), (Qabs_pos y) by lra. nra. }
  set (T := c * y / (Qabs y + c)) in *.
  set (a := Qabs x) in *. set (b := Qabs y) in *.
  assert (E' : T * (a + c) * (b + c) == c * y * (a + c)) by nra.
  rewrite E'. nra.
Qed.

Lemma cell_exact_monotone (self : ObjectiveFunction (H := Exact.arith))
    (s l s' l' : Q) (w : option Q) :
  0 <= default 1 w ->
  match self with
  | HuberLoss o => 0 <= RegressionHuberLoss.delta_ o
  | FairLoss o => 0 < RegressionFairLoss.c_ o
  | _ => True
  end ->
  s - l <= s' - l' ->
  (cell (H := Exact.arith) K self s l w).1 <= (cell (H := Exact.arith) K self s' l' w).1.
Proof.
  intros Hw Hcfg Hd. destruct self as [o|o|o|o]; cbn [cell].
  - rewrite !L2_exact_gradient. nra.
  - rewrite !L1_exact_gradient.
    destruct (Qle_bool 0 (s - l)) eqn:E1; destruct (Qle_bool 0 (s' - l')) eqn:E2;
      try lra.
    apply Qle_bool_iff in E1. apply Qle_bool_false in E2. lra.
  - rewrite (Huber_exact_gradient _ _ s l w), (Huber_exact_gradient _ _ s' l' w).
    assert (Hu : (Huber_cell (H := Exact.arith) K (RegressionHuberLoss.delta_ o)
                    (RegressionHuberLoss.eta_ o) s l None).1 <=
                 (Huber_cell (H := Exact.arith) K (RegressionHuberLoss.delta_ o)
                    (RegressionHuberLoss.eta_ o) s' l' None).1).
    { destruct (Huber_exact_cases_nonneg _ (RegressionHuberLoss.eta_ o) s l Hcfg)
        as [(?&?&->)|[(?&->)|(?&->)]];
      destruct (Huber_exact_cases_nonneg _ (RegressionHuberLoss.eta_ o) s' l' Hcfg)
        as [(?&?&->)|[(?&->)|(?&->)]]; lra. }
    nra.
  - destruct (Fair_cell_exact (RegressionFairLoss.c_ o) s l w) as [-> _].
    destruct (Fair_cell_exact (RegressionFairLoss.c_ o) s' l' w) as [-> _].
    pose proof (fair_ratio_monotone _ _ _ Hcfg Hd). nra.
Qed.

Lemma Huber_exact_bounded (delta eta s l : Q) (w : option Q) :
  0 <= delta ->
  Qabs (Huber_cell (H := Exact.arith) K delta eta s l w).1 <= delta * Qabs (default 1 w).
Proof.
  intros Hd. rewrite Huber_exact_gradient, Qabs_Qmult.
  apply Qmult_le_compat_r; [|apply Qabs_nonneg].
  apply Qabs_Qle_condition.
  destruct (Huber_exact_cases_nonneg delta eta s l Hd) as [(?&?&->)|[(?&->)|(?&->)]];
    split; lra.
Qed.

End Monotone.

(** X8.  The four losses are convex: when nothing is rounded, with a
    weight that is not negative (1 when none is bound), a threshold
    [delta >= 0] for Huber and a constant [c > 0] for Fair, of two
    indices of a call with the same weight the one with the larger
    residual gets the larger or equal gradient. *)
Theorem gradients_monotone_in_residual :
  forall (K : SmoothingUtility (H := Exact.arith)) (self : ObjectiveFunction)
         (score : list Q) (out : Out (H := Exact.arith)),
    well_sized (H := Exact.arith) (Z.to_nat (num_data self)) score (bound_label self)
      (bound_weights self) out ->
    match self with
    | HuberLoss o => (0 <= RegressionHuberLoss.delta_ o)%Q
    | FairLoss o => (0 < RegressionFairLoss.c_ o)%Q
    | _ => True
    end ->
    exists out',
      GetGradients K self score out = Some out' /\
      forall (i j : nat) (s l s' l' : Q) (w : option Q) (g g' : Q),
        (i < Z.to_nat (num_data self))%nat -> (j < Z.to_nat (num_data self))%nat ->
        inputs_at (H := Exact.arith) score (bound_label self) (bound_weights self) i
          = Some (s, l, w) ->
        inputs_at (H := Exact.arith) score (bound_label self) (bound_weights self) j
          = Some (s', l', w) ->
        (0 <= default 1 w)%Q ->
        (s - l <= s' - l')%Q ->
        gradients out' !! i = Some g -> gradients out' !! j = Some g' ->
        (g <= g')%Q.
Proof.
  intros K self score out Hws Hcfg.
  destruct (GetGradients_cells K self score out Hws) as (out' & Erun & _ & _ & Hin & _).
  exists out'. split; [exact Erun|].
  intros i j s l s' l' w g g' Hi Hj Ei Ej Hw Hd Eg Eg'.
  destruct (Hin i s l w Hi Ei) as [Eci _].
  destruct (Hin j s' l' w Hj Ej) as [Ecj _].
  pose proof (eq_trans (eq_sym Eg) Eci) as E1. injection E1 as ->.
  pose proof (eq_trans (eq_sym Eg') Ecj) as E2. injection E2 as ->.
  apply cell_exact_monotone; assumption.
Qed.

Lemma gradients_monotone_in_residual_witness :
  exists out' g g',
    GetGradients unit_utility (HuberLoss exact_Huber) [(-1)%Q; 3%Q] exact_out2 = Some out' /\
    gradients out' !! 0%nat = Some g /\ gradients out' !! 1%nat = Some g' /\ (g <= g')%Q.
Proof.
  destruct (gradients_monotone_in_residual unit_utility (HuberLoss exact_Huber)
              [(-1)%Q; 3%Q] exact_out2) as (out' & Erun & Hmono).
  { unfold well_sized; simpl. repeat split; try lia. intros ws E; discriminate E. }
  { simpl. discriminate. }
  pose proof Erun as Eout. vm_compute in Eout. injection Eout as Eout.
  assert (Eg : gradients out' !! 0%nat = Some (-1)%Q) by (rewrite <- Eout; reflexivity).
  assert (Eg' : gradients out' !! 1%nat = Some 1%Q) by (rewrite <- Eout; reflexivity).
  exists out', (-1)%Q, 1%Q. split; [exact Erun|]. split; [exact Eg|]. split; [exact Eg'|].
  apply (Hmono 0%nat 1%nat (-1)%Q 0%Q 3%Q 0%Q None (-1)%Q 1%Q);
    [simpl; lia|simpl; lia|reflexivity|reflexivity|simpl; discriminate|discriminate
    |exact Eg|exact Eg'].
Defined.

(** X9.  Huber bounds the pull of an outlier: when nothing is rounded
    and [delta >= 0], the gradient written at any index is at most
    [delta] times the absolute value of the weight (1 when no weight is
    bound) in absolute value, whatever the residual. *)
Theorem Huber_gradient_bounded :
  forall (K : SmoothingUtility (H := Exact.arith)) (self : RegressionHuberLoss.t)
         (score : list Q) (out : Out (H := Exact.arith)),
    well_sized (H := Exact.arith) (Z.to_nat (RegressionHuberLoss.num_data_ self)) score
      (RegressionHuberLoss.label_ self) (RegressionHuberLoss.weights_ self) out ->
    (0 <= RegressionHuberLoss.delta_ self)%Q ->
    exists out',
      RegressionHuberLoss.GetGradients K self score out = Some out' /\
      forall (i : nat) (s l : Q) (w : option Q) (g : Q),
        (i < Z.to_nat (RegressionHuberLoss.num_data_ self))%nat ->
        inputs_at (H := Exact.arith) score (RegressionHuberLoss.label_ self)
          (RegressionHuberLoss.weights_ self) i = Some (s, l, w) ->
        gradients out' !! i = Some g ->
        (Qabs g <= RegressionHuberLoss.delta_ self * Qabs (default 1 w))%Q.
Proof.
  intros K self score out Hws Hd.
  destruct (GetGradients_cells K (HuberLoss self) score out Hws)
    as (out' & Erun & _ & _ & Hin & _).
  exists out'. split; [exact Erun|].
  intros i s l w g Hi Ein Eg.
  destruct (Hin i s l w Hi Ein) as [Ec _].
  pose proof (eq_trans (eq_sym Eg) Ec) as E1. injection E1 as ->.
  cbn [cell]. apply Huber_exact_bounded, Hd.
Qed.

Lemma Huber_gradient_bounded_witness :
  exists out' g,
    RegressionHuberLoss.GetGradients unit_utility exact_Huber [(-1)%Q; 3%Q] exact_out2
      = Some out' /\
    gradients out' !! 1%nat = Some g /\ (Qabs g <= 1 * Qabs 1)%Q.
Proof.
  destruct (Huber_gradient_bounded unit_utility exact_Huber [(-1)%Q; 3%Q] exact_out2)
    as (out' & Erun & Hb).
  { unfold well_sized; simpl. repeat split; try lia. intros ws E; discriminate E. }
  { simpl. discriminate. }
  pose proof Erun as Eout. vm_compute in Eout. injection Eout as Eout.
  assert (Eg : gradients out' !! 1%nat = Some 1%Q) by (rewrite <- Eout; reflexivity).
  exists out', 1%Q. split; [exact Erun|]. split; [exact Eg|].
  apply (Hb 1%nat 3%Q 0%Q None 1%Q); [simpl; lia|reflexivity|exact Eg].
Defined.

(** ** The Fair hessian is never negative *)

Lemma signed_number_sign_bit s x : signed_number s x -> IEEE.sign_bit x = s.
Proof. intros [->|[(m & e & ->)| ->]]; reflexivity. Qed.

Lemma convert_sign_bit prec emax x :
  IEEE.sign_bit (IEEE.convert prec emax x) = IEEE.sign_bit x.
Proof.
  destruct x as [s|s| |s m e]; try reflexivity.
  apply signed_number_sign_bit, binary_round_signed.
Qed.

(** A product has the sign bit clear when both factors have, and when
    both factors are the same number. *)
Lemma SFmul_sign_bit prec emax x y :
  IEEE.sign_bit x = IEEE.sign_bit y -> IEEE.sign_bit (SFmul prec emax x y) = false.
Proof.
  destruct x as [sx|sx| |sx mx ex], y as [sy|sy| |sy my ey]; simpl;
    try reflexivity; intros ->; rewrite ?Bool.xorb_nilpotent; try reflexivity.
  apply signed_number_sign_bit, binary_round_aux_signed. lia.
Qed.

Lemma SFdiv_core_binary_nonneg prec emax mx ex my ey :
  0 <= (SFdiv_core_binary prec emax (Z.pos mx) ex (Z.pos my) ey).1.1.
Proof.
  unfold SFdiv_core_binary.
  set (s := ex - ey -
            Z.min (fexp prec emax (Zdigits2 (Z.pos mx) + ex - (Zdigits2 (Z.pos my) + ey)))
                  (ex - ey)).
  set (m' := match s with Z.pos _ => Z.shiftl (Z.pos mx) s | Z0 => Z.pos mx | Z.neg _ => 0 end).
  assert (Hm : 0 <= m').
  { unfold m'. destruct s; try lia. apply Z.shiftl_nonneg. lia. }
  pose proof (Z.div_pos m' (Z.pos my) Hm ltac:(lia)) as Hq.
  unfold Z.div in Hq. destruct (Z.div_eucl m' (Z.pos my)) as [q r]. exact Hq.
Qed.

Lemma SFdiv_sign_bit prec emax x y :
  IEEE.sign_bit x = IEEE.sign_bit y -> IEEE.sign_bit (SFdiv prec emax x y) = false.
Proof.
  destruct x as [sx|sx| |sx mx ex], y as [sy|sy| |sy my ey]; simpl;
    try reflexivity; intros ->; rewrite ?Bool.xorb_nilpotent; try reflexivity.
  pose proof (SFdiv_core_binary_nonneg prec emax mx ex my ey) as Hq.
  destruct (SFdiv_core_binary prec emax (Z.pos mx) ex (Z.pos my) ey) as [[mz ez] lz].
  apply signed_number_sign_bit, binary_round_aux_signed. exact Hq.
Qed.

Lemma Fair_cell_hessian_sign c s l w :
  (forall x, w = Some x -> IEEE.sign_bit x = false) ->
  IEEE.sign_bit (Fair_cell (H := IEEE.arith) c s l w).2 = false.
Proof.
  intros Hw. cbv [Fair_cell dsub dadd dmul ddiv dabs d_of_f f_of_d IEEE.arith].
  set (x := SFsub IEEE.prec64 IEEE.emax64 s (IEEE.to_double l)).
  set (D := SFadd IEEE.prec64 IEEE.emax64 (SFabs x) c).
  assert (Hu : IEEE.sign_bit
                 (SFdiv IEEE.prec64 IEEE.emax64 (SFmul IEEE.prec64 IEEE.emax64 c c)
                    (SFmul IEEE.prec64 IEEE.emax64 D D)) = false).
  { apply SFdiv_sign_bit. rewrite !SFmul_sign_bit; reflexivity. }
  destruct w as [w|]; cbn [snd]; unfold IEEE.to_float; rewrite convert_sign_bit.
  - apply SFmul_sign_bit. rewrite Hu. unfold IEEE.to_double.
    rewrite convert_sign_bit. symmetry. apply Hw. reflexivity.
  - exact Hu.
Qed.

(** X10.  The Fair hessian is never negative, in the arithmetic of the
    compiled code and without any condition on the inputs: for every
    [c], every score and every label, finite or not, and weights whose
    sign bit is clear if weights are bound, the hessian written at every
    index has its sign bit clear: it is a non-negative number, [+0]
    included, or NaN; it is never below zero. *)
Theorem Fair_hessian_never_negative :
  forall (self : RegressionFairLoss.t (H := IEEE.arith)) (score : list spec_float)
         (out : Out (H := IEEE.arith)),
    well_sized (H := IEEE.arith) (Z.to_nat (RegressionFairLoss.num_data_ self)) score
      (RegressionFairLoss.label_ self) (RegressionFairLoss.weights_ self) out ->
    exists out',
      RegressionFairLoss.GetGradients self score out = Some out' /\
      forall (i : nat) (s l : spec_float) (w : option spec_float),
        (i < Z.to_nat (RegressionFairLoss.num_data_ self))%nat ->
        inputs_at (H := IEEE.arith) score (RegressionFairLoss.label_ self)
          (RegressionFairLoss.weights_ self) i = Some (s, l, w) ->
        (forall x, w = Some x -> IEEE.sign_bit x = false) ->
        exists h,
          hessians out' !! i = Some h /\
          IEEE.sign_bit h = false /\ SFltb h IEEE.zero = false.
Proof.
  intros self score out Hws.
  destruct (GetGradients_cells (fun s _ _ _ _ => s) (FairLoss self) score out Hws)
    as (out' & Erun & _ & _ & Hin & _).
  exists out'. split; [exact Erun|].
  intros i s l w Hi Ein Hw. destruct (Hin i s l w Hi Ein) as [_ Eh].
  cbn [cell] in Eh. eexists. split; [exact Eh|].
  pose proof (Fair_cell_hessian_sign (RegressionFairLoss.c_ self) s l w Hw) as Hs.
  split; [exact Hs|].
  destruct ((Fair_cell (H := IEEE.arith) (RegressionFairLoss.c_ self) s l w).2)
    as [sh|sh| |sh mh eh]; simpl in Hs; subst; reflexivity.
Qed.

Lemma Fair_hessian_never_negative_witness :
  exists out' h,
    RegressionFairLoss.GetGradients far_Fair far_score zeros1 = Some out' /\
    hessians out' !! 0%nat = Some h /\ SFltb h IEEE.zero = false.
Proof.
  destruct (Fair_hessian_never_negative far_Fair far_score zeros1) as (out' & Erun & Hh).
  { unfold well_sized; simpl. repeat split; try lia. intros ws [= <-]. simpl. lia. }
  destruct (Hh 0%nat (IEEE.f64_of_pow2 1 60) IEEE.zero (Some IEEE.one32)) as (h & Eh & _ & Hlt);
    [simpl; lia|reflexivity|intros x [= <-]; reflexivity|].
  exists out', h. split; [exact Erun|]. split; [exact Eh|exact Hlt].
Defined.
